(** * eth-balance-check: the batch retrieval engine of [src/index.js]

    A shallow embedding of the retry wrapper, the chunking helper and the two
    pipelines of [BAYCHoldersAnalyzer], with the properties of the
    specification checked against them.

    Modelling decisions:
    - awaiting a promise either yields a value or throws: [Completion];
    - a remote operation is a thunk that is invoked once per attempt; its
      outcome at the n-th invocation (zero-based) is [fn n];
    - [CONFIG] is a record; the functions take it as a parameter so that
      batch sizes and retry budgets can be varied, and the repository's
      values are the constant [CONFIG];
    - the [ethers] library and the node behind it are the record [Ethers];
    - numbers that count things (sizes, attempts, token ids) are [nat],
      balances are [Z] (JavaScript BigInt), delays are [Z] milliseconds. *)

From Stdlib Require Import Ascii String.
From stdpp Require Import base numbers list strings pretty.

Local Open Scope string_scope.

(** ** Configuration (lines 5-14) *)

Record Config := {
  CONCURRENT_REQUESTS : nat;
  OWNER_BATCH_SIZE : nat;
  BALANCE_BATCH_SIZE : nat;
  RETRY_ATTEMPTS : nat;
  RETRY_DELAY : Z;
}.

Definition CONFIG : Config := {|
  CONCURRENT_REQUESTS := 25;
  OWNER_BATCH_SIZE := 150;
  BALANCE_BATCH_SIZE := 75;
  RETRY_ATTEMPTS := 3;
  RETRY_DELAY := 1000;
|}.

(** ** Errors, completions and nullable values *)

(** What can be thrown: the error object of a failed remote call with its
    [reason] property (absent on most transport errors), and the two
    exceptions the runtime itself raises in this program. *)
Inductive Error :=
  | RpcError (reason : option string)
  | TypeError (message : string)
  | RangeError (message : string).

(** [error.reason] *)
Definition reason (e : Error) : option string :=
  match e with
  | RpcError r => r
  | TypeError _ | RangeError _ => None
  end.

Global Instance Error_eq_dec : EqDecision Error.
Proof. solve_decision. Defined.

(** The result of [await p]: the value of a fulfilled promise, or the
    rejection reason thrown at the await. *)
Inductive Completion (A : Type) :=
  | Normal (a : A)
  | Throw (e : Error).
Arguments Normal {A} a.
Arguments Throw {A} e.

Global Instance Completion_ret : MRet Completion := fun _ a => Normal a.
Global Instance Completion_bind : MBind Completion := fun _ _ k m =>
  match m with
  | Normal a => k a
  | Throw e => Throw e
  end.

(** A JavaScript value of type [A | null | undefined]. *)
Inductive Value (A : Type) :=
  | Undefined
  | Null
  | Val (a : A).
Arguments Undefined {A}.
Arguments Null {A}.
Arguments Val {A} a.

Global Instance Value_eq_dec `{EqDecision A} : EqDecision (Value A).
Proof. solve_decision. Defined.

(** ** withRetry (lines 57-74) *)

(** What a call of [withRetry] does to the outside world, in order: it
    invokes the wrapped operation, and it sleeps. *)
Inductive Event :=
  | Call (attempt : nat)
  | Sleep (ms : Z).

Definition nonexistent_token : string :=
  "ERC721: owner query for nonexistent token".

(** [error.reason === "ERC721: owner query for nonexistent token"] *)
Definition is_nonexistent (e : Error) : bool :=
  bool_decide (reason e = Some nonexistent_token).

Section Retry.
Context {A : Type}.
Variable cfg : Config.

(** The [for] loop from index [i] on. [fuel] bounds the number of
    iterations left; [withRetry] starts it with [retries], which the loop
    test [i < retries] never lets it use up. *)
Fixpoint withRetry_loop (fn : nat → Completion A) (retries i fuel : nat)
    : list Event * Completion (Value A) :=
  match fuel with
  | 0 => ([], Normal Undefined)
  | S fuel' =>
      if decide (i < retries) then
        match fn i with
        | Normal v => ([Call i], Normal (Val v))
        | Throw error =>
            if is_nonexistent error then ([Call i], Normal Null)
            else if decide (i = retries - 1) then ([Call i], Throw error)
            else
              let delay := (RETRY_DELAY cfg * 2 ^ Z.of_nat i)%Z in
              let '(events, result) := withRetry_loop fn retries (S i) fuel' in
              (Call i :: Sleep delay :: events, result)
        end
      else ([], Normal Undefined)
  end.

Definition withRetry (fn : nat → Completion A) (retries : nat)
    : list Event * Completion (Value A) :=
  withRetry_loop fn retries 0 retries.

(** The calls and sleeps of [n] transient failures in a row, starting at
    attempt [i]. *)
Definition backoff (i n : nat) : list Event :=
  flat_map (fun j => [Call j; Sleep (RETRY_DELAY cfg * 2 ^ Z.of_nat j)%Z])
           (seq i n).

End Retry.

(** The number of times the wrapped operation was invoked. *)
Definition is_call (ev : Event) : bool :=
  match ev with
  | Call _ => true
  | Sleep _ => false
  end.

Definition attempts (events : list Event) : nat :=
  length (List.filter is_call events).

(** Whether the run slept at all. *)
Definition is_sleep (ev : Event) : bool := negb (is_call ev).

Definition slept (events : list Event) : bool := existsb is_sleep events.

(** A failure that is neither a success nor the nonexistent-token signature. *)
Definition transient {A} (c : Completion A) : Prop :=
  ∃ e, c = Throw e ∧ is_nonexistent e = false.

(** ** chunk (lines 76-79) *)

(** [arr.slice(from, to)] for [0 <= from <= to]. *)
Definition slice {A} (arr : list A) (from to : nat) : list A :=
  take (to - from) (drop from arr).

(** [Math.ceil(a / b)] on non-negative integers, [b > 0]. *)
Definition ceil_div (a b : nat) : nat := (a + b - 1) / b.

(** [Array.from({ length: Math.ceil(arr.length / size) }, (_, i) => arr.slice(i * size, i * size + size))].
    With [size = 0] the length is [NaN] for an empty array, which
    [Array.from] reads as 0, and [Infinity] otherwise, which is not a valid
    array length. *)
Definition chunk {A} (arr : list A) (size : nat) : Completion (list (list A)) :=
  match size with
  | 0 =>
      match arr with
      | [] => Normal []
      | _ :: _ => Throw (RangeError "Invalid array length")
      end
  | S _ =>
      Normal (map (fun i => slice arr (i * size) (i * size + size))
                  (seq 0 (ceil_div (length arr) size)))
  end.

(** ** The collaborators: p-limit, Set, Promise.all, BigInt, ethers *)

(** [this.limit(task)]: the limiter decides when [task] starts, never what
    it yields; the promise it returns settles as the task does. *)
Definition limit {A} (task : A) : A := task.

(** [Promise.all(promises)]: the list of values when all fulfil, and a
    rejection as soon as one rejects. Which rejection comes first depends on
    timing; the model takes the one at the lowest index. *)
Fixpoint Promise_all {A} (promises : list (Completion A)) : Completion (list A) :=
  match promises with
  | [] => Normal []
  | Normal v :: rest => vs ← Promise_all rest; Normal (v :: vs)
  | Throw e :: _ => Throw e
  end.

(** [set.add(x)] on a [Set], kept as the list [[...set]] of its elements in
    insertion order. Strings are compared character by character. *)
Definition Set_add `{EqDecision A} (x : A) (s : list A) : list A :=
  if decide (x ∈ s) then s else s ++ [x].

(** [BigInt(balance)] for a balance of type [bigint | null | undefined]. *)
Definition BigInt (v : Value Z) : Completion Z :=
  match v with
  | Val n => Normal n
  | Undefined => Throw (TypeError "Cannot convert undefined to a BigInt")
  | Null => Throw (TypeError "Cannot convert null to a BigInt")
  end.

(** The [ethers] module as the program uses it: the three remote reads, each
    giving its outcome per invocation, and the pure formatter.
    [totalSupply] is the supply after [Number(...)]. *)
Record Ethers := {
  totalSupply : Completion nat;
  ownerOf : nat → nat → Completion string;
  getBalance : Value string → nat → Completion Z;
  formatEther : Z → string;
}.

(** A value handed to the caller of the entry point. *)
Inductive JsValue :=
  | JsString (s : string)
  | JsBigInt (n : Z).

(** What [main] prints at its end: the results, or the error it caught. *)
Inductive Report :=
  | Results (epochTime : Z) (total : JsValue)
  | ErrorInMain (error : Error).

(** ** BAYCHoldersAnalyzer (lines 81-190) and main (lines 192-210) *)

(** The local variables of [getUniqueHolders]. *)
Record HoldersState := {
  uniqueHolders : list (Value string);
  processedTokens : nat;
  skippedTokens : nat;
}.

(** The local variables of the balance loop of [calculateTotalETHForHolders]. *)
Record BalanceState := {
  totalETH : Z;
  processedHolders : nat;
  failedBalanceChecks : nat;
}.

Section Analyzer.
Variable cfg : Config.
Variable eth : Ethers.

(** [Array.from({ length: totalSupplyNum }, (_, i) => i + 1)], for a supply
    below 2^32. (A larger length is not an array length: line 98 then throws
    a RangeError, which this list does not show; statements that depend on
    the size of the supply carry the bound as a hypothesis.) *)
Definition tokenIds (totalSupplyNum : nat) : list nat :=
  map (fun i => i + 1) (seq 0 totalSupplyNum).

(** [withRetry(() => this.contract.ownerOf(tokenId))] *)
Definition lookupOwner (tokenId : nat) : Completion (Value string) :=
  (withRetry cfg (ownerOf eth tokenId) (RETRY_ATTEMPTS cfg)).2.

(** [withRetry(() => provider.getBalance(address))] *)
Definition lookupBalance (address : Value string) : Completion (Value Z) :=
  (withRetry cfg (getBalance eth address) (RETRY_ATTEMPTS cfg)).2.

(** The body of [owners.forEach] (lines 110-116). *)
Definition collectOwner (st : HoldersState) (owner : Value string) : HoldersState :=
  match owner with
  | Null =>
      {| uniqueHolders := uniqueHolders st;
         processedTokens := processedTokens st;
         skippedTokens := skippedTokens st + 1 |}
  | _ =>
      {| uniqueHolders := Set_add owner (uniqueHolders st);
         processedTokens := processedTokens st;
         skippedTokens := skippedTokens st |}
  end.

(** [for (const batch of batches)] of [getUniqueHolders] (lines 104-128). *)
Fixpoint ownerBatches (batches : list (list nat)) (st : HoldersState)
    : Completion HoldersState :=
  match batches with
  | [] => Normal st
  | batch :: rest =>
      owners ← Promise_all (map (fun tokenId => limit (lookupOwner tokenId)) batch);
      let st := fold_left collectOwner owners st in
      ownerBatches rest
        {| uniqueHolders := uniqueHolders st;
           processedTokens := processedTokens st + length batch;
           skippedTokens := skippedTokens st |}
  end.

(** [getUniqueHolders] with its counters. *)
Definition getUniqueHolders_run : Completion HoldersState :=
  totalSupplyNum ← totalSupply eth;
  batches ← chunk (tokenIds totalSupplyNum) (OWNER_BATCH_SIZE cfg);
  ownerBatches batches
    {| uniqueHolders := []; processedTokens := 0; skippedTokens := 0 |}.

(** [return [...uniqueHolders]] *)
Definition getUniqueHolders : Completion (list (Value string)) :=
  st ← getUniqueHolders_run; Normal (uniqueHolders st).

(** [balances.forEach] (lines 155-161); the callback may throw. *)
Fixpoint collectBalances (balances : list (Value Z)) (st : BalanceState)
    : Completion BalanceState :=
  match balances with
  | [] => Normal st
  | balance :: rest =>
      match balance with
      | Null =>
          collectBalances rest
            {| totalETH := totalETH st;
               processedHolders := processedHolders st;
               failedBalanceChecks := failedBalanceChecks st + 1 |}
      | _ =>
          n ← BigInt balance;
          collectBalances rest
            {| totalETH := totalETH st + n;
               processedHolders := processedHolders st;
               failedBalanceChecks := failedBalanceChecks st |}
      end
  end.

(** [for (const batch of batches)] of [calculateTotalETHForHolders]
    (lines 149-173). *)
Fixpoint balanceBatches (batches : list (list (Value string))) (st : BalanceState)
    : Completion BalanceState :=
  match batches with
  | [] => Normal st
  | batch :: rest =>
      balances ← Promise_all (map (fun address => limit (lookupBalance address)) batch);
      st ← collectBalances balances st;
      balanceBatches rest
        {| totalETH := totalETH st;
           processedHolders := processedHolders st + length batch;
           failedBalanceChecks := failedBalanceChecks st |}
  end.

(** Lines 144-173: the aggregation over a list of holders. *)
Definition aggregateBalances (holders : list (Value string)) : Completion BalanceState :=
  batches ← chunk holders (BALANCE_BATCH_SIZE cfg);
  balanceBatches batches
    {| totalETH := 0; processedHolders := 0; failedBalanceChecks := 0 |}.

(** [calculateTotalETHForHolders] with the counters of both loops. *)
Definition calculateTotalETHForHolders_run (epochTime : Z)
    : Completion (HoldersState * BalanceState) :=
  hs ← getUniqueHolders_run;
  bs ← aggregateBalances (uniqueHolders hs);
  Normal (hs, bs).

(** [return formattedTotal] *)
Definition calculateTotalETHForHolders (epochTime : Z) : Completion JsValue :=
  run ← calculateTotalETHForHolders_run epochTime;
  let formattedTotal := formatEther eth (totalETH run.2) in
  Normal (JsString formattedTotal).

(** [main]: one run at the fixed timestamp, inside [try]/[catch], from the
    analyzer as constructed at line 197. (The constructor calls [pLimit],
    which accepts a limit of 1 and up and throws a TypeError otherwise;
    statements that name the error [main] reports for every configuration
    carry [0 < CONCURRENT_REQUESTS] as a hypothesis.) *)
Definition main : Report :=
  let epochTime := 1672531200%Z in
  match calculateTotalETHForHolders epochTime with
  | Normal total => Results epochTime total
  | Throw error => ErrorInMain error
  end.
End Analyzer.

(** ** PerformanceTracker (lines 30-55)

    Times are JavaScript numbers read from [performance.now()]. The model
    takes their type, the number 0, the subtraction on them and the
    rendering [(t / 1000).toFixed(2)] as parameters, and every reading of
    the clock as an argument [now]. *)

Section Tracker.
Variable Time : Type.
Variable zero : Time.
Variable minus : Time → Time → Time.
Variable toSeconds : Time → string.

(** [map.set(key, value)] on a [Map], kept as the list of its entries in
    insertion order: a key that is present keeps its place and gets the new
    value, a new key goes to the end. *)
Fixpoint Map_set (key : string) (value : Time) (entries : list (string * Time))
    : list (string * Time) :=
  match entries with
  | [] => [(key, value)]
  | (k, v) :: rest =>
      if decide (k = key) then (k, value) :: rest
      else (k, v) :: Map_set key value rest
  end.

Record PerformanceTracker := {
  startTime : Time;
  checkpoints : list (string * Time);
}.

(** [new PerformanceTracker()] *)
Definition newPerformanceTracker : PerformanceTracker :=
  {| startTime := zero; checkpoints := [] |}.

(** [start()] *)
Definition start (now : Time) (tracker : PerformanceTracker) : PerformanceTracker :=
  {| startTime := now; checkpoints := checkpoints tracker |}.

(** [checkpoint(name)] *)
Definition checkpoint (name : string) (now : Time) (tracker : PerformanceTracker)
    : PerformanceTracker :=
  {| startTime := startTime tracker;
     checkpoints := Map_set name (minus now (startTime tracker)) (checkpoints tracker) |}.

(** [getTotalTime()] *)
Definition getTotalTime (now : Time) (tracker : PerformanceTracker) : string :=
  toSeconds (minus now (startTime tracker)).

(** [printSummary()]: the lines written to the console, in order. *)
Definition printSummary (now : Time) (tracker : PerformanceTracker) : list string :=
  [String "010"%char "Performance Summary:"]
  ++ map (fun '(name, time) => name ++ ": " ++ toSeconds time ++ "s")
         (checkpoints tracker)
  ++ ["Total Time: " ++ getTotalTime now tracker ++ "s"].
End Tracker.

Arguments Map_set {Time} key value entries.
Arguments startTime {Time} p.
Arguments checkpoints {Time} p.
Arguments newPerformanceTracker {Time} zero.
Arguments start {Time} now tracker.
Arguments checkpoint {Time} minus name now tracker.
Arguments getTotalTime {Time} minus toSeconds now tracker.
Arguments printSummary {Time} minus toSeconds now tracker.

(** ** A reference [formatEther]

    The rendering of ethers v6 ([formatUnits(value, 18)]): the integer is
    split at 18 decimals, the fraction is padded to 18 digits and its
    trailing zeros are dropped, keeping one digit. It instantiates the
    [formatEther] field in the concrete runs below. *)

Fixpoint dropTrailingZeros (digits_rev : list ascii) : list ascii :=
  match digits_rev with
  | d :: ((_ :: _) as rest) =>
      if decide (d = "0"%char) then dropTrailingZeros rest else digits_rev
  | _ => digits_rev
  end.

Definition formatEther_v6 (wei : Z) : string :=
  let sign := if decide (wei < 0)%Z then "-" else "" in
  let v := Z.abs wei in
  let whole := pretty (v / 10 ^ 18)%Z in
  let frac := list_ascii_of_string (pretty (v mod 10 ^ 18)%Z) in
  let padded := (replicate (18 - length frac) "0"%char ++ frac)%list in
  sign ++ whole ++ "." ++
    string_of_list_ascii (rev (dropTrailingZeros (rev padded))).

(** ** Concrete operations and runs used in the examples *)

(** An operation that fails [k] times with a transport error and then
    yields [v]. *)
Definition failsThenYields {A} (k : nat) (v : A) : nat → Completion A :=
  fun attempt => if decide (attempt < k) then Throw (RpcError None) else Normal v.

(** An operation on a record that does not exist. *)
Definition alwaysNonexistent {A} : nat → Completion A :=
  fun _ => Throw (RpcError (Some nonexistent_token)).

(** An operation that never gets through. *)
Definition alwaysTransient {A} : nat → Completion A :=
  fun _ => Throw (RpcError (Some "rate limited")).

(** The scenario of the specification: five tokens owned by A, A, B,
    nobody (token 4 does not exist) and C, with balances 10, 0 and 5. *)
Definition scenarioOwnerOf (tokenId attempt : nat) : Completion string :=
  match tokenId with
  | 1 | 2 => Normal "0xA"
  | 3 => Normal "0xB"
  | 5 => Normal "0xC"
  | _ => Throw (RpcError (Some nonexistent_token))
  end.

Definition scenarioGetBalance (address : Value string) (attempt : nat) : Completion Z :=
  if decide (address = Val "0xA") then Normal 10%Z
  else if decide (address = Val "0xB") then Normal 0%Z
  else if decide (address = Val "0xC") then Normal 5%Z
  else Throw (RpcError None).

Definition scenario : Ethers := {|
  totalSupply := Normal 5;
  ownerOf := scenarioOwnerOf;
  getBalance := scenarioGetBalance;
  formatEther := formatEther_v6;
|}.

(** A ledger of three tokens, all of which exist, owned by A, A and B, where
    A holds 15 and B nothing. *)
Definition scenarioNoGap : Ethers := {|
  totalSupply := Normal 3;
  ownerOf := scenarioOwnerOf;
  getBalance := fun address attempt =>
    if decide (address = Val "0xA") then Normal 15%Z else Normal 0%Z;
  formatEther := formatEther_v6;
|}.

(** The scenario in which the node never answers for the balance of B. *)
Definition scenarioBDown : Ethers := {|
  totalSupply := Normal 5;
  ownerOf := scenarioOwnerOf;
  getBalance := fun address attempt =>
    if decide (address = Val "0xB") then alwaysTransient attempt
    else scenarioGetBalance address attempt;
  formatEther := formatEther_v6;
|}.

(** Balances above 2^53, where a double would round: 2^53 + 1 and 1. *)
Definition largeBalances (address : Value string) (attempt : nat) : Completion Z :=
  if decide (address = Val "0xA") then Normal 9007199254740993%Z
  else if decide (address = Val "0xB") then Throw (RpcError (Some nonexistent_token))
  else Normal 1%Z.

Definition whales : Ethers := {|
  totalSupply := Normal 5;
  ownerOf := scenarioOwnerOf;
  getBalance := largeBalances;
  formatEther := formatEther_v6;
|}.

(** The configuration of the repository with no retry budget. *)
Definition noRetries : Config := {|
  CONCURRENT_REQUESTS := 25;
  OWNER_BATCH_SIZE := 150;
  BALANCE_BATCH_SIZE := 75;
  RETRY_ATTEMPTS := 0;
  RETRY_DELAY := 1000;
|}.

(** A ledger whose node does not answer the supply query. *)
Definition nodeDown : Ethers := {|
  totalSupply := Throw (RpcError (Some "missing response"));
  ownerOf := scenarioOwnerOf;
  getBalance := scenarioGetBalance;
  formatEther := formatEther_v6;
|}.

(** The ledger [whales] behind a node that rejects the first two calls of
    every lookup. *)
Definition flakyWhales : Ethers := {|
  totalSupply := Normal 5;
  ownerOf := fun tokenId attempt =>
    if decide (attempt < 2)%nat then Throw (RpcError None)
    else scenarioOwnerOf tokenId 0;
  getBalance := fun address attempt =>
    if decide (attempt < 2)%nat then Throw (RpcError None)
    else largeBalances address 0;
  formatEther := formatEther_v6;
|}.

(** The scenario in which the node never answers for the owner of token 3. *)
Definition scenarioToken3Down : Ethers := {|
  totalSupply := Normal 5;
  ownerOf := fun tokenId attempt =>
    if decide (tokenId = 3) then alwaysTransient attempt
    else scenarioOwnerOf tokenId attempt;
  getBalance := scenarioGetBalance;
  formatEther := formatEther_v6;
|}.

(** The counters with which the run over [scenario] ends. *)
Definition scenarioHolders : HoldersState :=
  {| uniqueHolders := [Val "0xA"; Val "0xB"; Val "0xC"];
     processedTokens := 5; skippedTokens := 1 |}.

Definition scenarioBalances : BalanceState :=
  {| totalETH := 15; processedHolders := 3; failedBalanceChecks := 0 |}.

(** ** Auxiliary definitions for the statements

    None of these is part of the program: they name the quantities the
    properties speak about. *)

(** [processedTokens += n] *)
Definition addProcessedTokens (n : nat) (st : HoldersState) : HoldersState :=
  {| uniqueHolders := uniqueHolders st;
     processedTokens := processedTokens st + n;
     skippedTokens := skippedTokens st |}.

(** [processedHolders += n] *)
Definition addProcessedHolders (n : nat) (st : BalanceState) : BalanceState :=
  {| totalETH := totalETH st;
     processedHolders := processedHolders st + n;
     failedBalanceChecks := failedBalanceChecks st |}.

(** What a settled balance adds to the total: its amount, and nothing for
    [null]. *)
Definition amount (balance : Value Z) : Z :=
  match balance with
  | Val n => n
  | Null | Undefined => 0
  end.

Definition isNull {A} (v : Value A) : bool :=
  match v with
  | Null => true
  | Undefined | Val _ => false
  end.

(** The exact integer sum of a list of settled balances. *)
Definition sumOf (balances : list (Value Z)) : Z :=
  foldr Z.add 0%Z (map amount balances).

(** The number of [null] results in a list. *)
Definition nulls {A} (results : list (Value A)) : nat :=
  length (List.filter isNull results).



(** The local variables of [getUniqueHolders] at its start (lines 95-102). *)
Definition noHolders : HoldersState :=
  {| uniqueHolders := []; processedTokens := 0; skippedTokens := 0 |}.

(** What [balances.forEach] does with one balance that is not [undefined]. *)
Definition settleBalance (st : BalanceState) (balance : Value Z) : BalanceState :=
  match balance with
  | Null =>
      {| totalETH := totalETH st;
         processedHolders := processedHolders st;
         failedBalanceChecks := failedBalanceChecks st + 1 |}
  | _ =>
      {| totalETH := totalETH st + amount balance;
         processedHolders := processedHolders st;
         failedBalanceChecks := failedBalanceChecks st |}
  end.

(** The local variables of the balance loop at its start (lines 145-147). *)
Definition noBalances : BalanceState :=
  {| totalETH := 0; processedHolders := 0; failedBalanceChecks := 0 |}.

(** [BigInt(undefined)] *)
Definition undefinedToBigInt : Error :=
  TypeError "Cannot convert undefined to a BigInt".

(** Two runs end alike: with the same value, or both with an exception. *)
Definition sameOutcome {A} (r1 r2 : Completion A) : Prop :=
  match r1, r2 with
  | Normal a1, Normal a2 => a1 = a2
  | Throw _, Throw _ => True
  | _, _ => False
  end.

(** The time a run spent asleep, in milliseconds. *)
Definition sleepTotal (events : list Event) : Z :=
  foldr Z.add 0%Z
    (map (fun ev => match ev with Sleep ms => ms | Call _ => 0%Z end) events).

(** The elements of a list in the order of their first occurrence, each
    once. *)
Fixpoint firstOccurrences `{EqDecision A} (l : list A) : list A :=
  match l with
  | [] => []
  | x :: rest => x :: filter (fun y => y ≠ x) (firstOccurrences rest)
  end.

(** The owners among the results of a batch of lookups: all but [null]. *)
Definition resolved {A} (results : list (Value A)) : list (Value A) :=
  List.filter (fun v => negb (isNull v)) results.

(** An operation behind a flaky link recovers within [retries] attempts:
    after fewer than [retries] transient failures it answers what the
    operation [stable] answers at once, and that answer is final (a value or
    the nonexistent-token signature). *)
Definition recovers {A} (retries : nat) (flaky stable : nat → Completion A) : Prop :=
  ∃ k, (k < retries)%nat
    ∧ (∀ j, (j < k)%nat → transient (flaky j))
    ∧ flaky k = stable 0%nat
    ∧ ¬ transient (stable 0%nat).

(** [map.get(key)] on the entries of a [Map]. *)
Fixpoint Map_get {V} (key : string) (entries : list (string * V)) : option V :=
  match entries with
  | [] => None
  | (k, v) :: rest => if decide (k = key) then Some v else Map_get key rest
  end.

(** [[...map.keys()]] *)
Definition Map_keys {V} (entries : list (string * V)) : list string :=
  map fst entries.

(** An operation settles at attempt [k] with the result [r]: after [k]
    transient failures, within the budget, it gives a value ([r] is that
    value) or reports the nonexistent-token signature ([r] is [null]). *)
Definition settles {A} (retries : nat) (fn : nat → Completion A) (k : nat)
    (r : Value A) : Prop :=
  (k < retries)%nat
  ∧ (∀ j, (j < k)%nat → transient (fn j))
  ∧ ((∃ v, fn k = Normal v ∧ r = Val v)
     ∨ (∃ e, fn k = Throw e ∧ is_nonexistent e = true ∧ r = Null)).

(** The largest array length plus one. *)
Definition arrayLengthLimit : Z := (2 ^ 32)%Z.




(** The same configuration with other batch sizes. *)
Definition withBatchSizes (cfg : Config) (ownerBatch balanceBatch : nat) : Config :=
  {| CONCURRENT_REQUESTS := CONCURRENT_REQUESTS cfg;
     OWNER_BATCH_SIZE := ownerBatch;
     BALANCE_BATCH_SIZE := balanceBatch;
     RETRY_ATTEMPTS := RETRY_ATTEMPTS cfg;
     RETRY_DELAY := RETRY_DELAY cfg |}.

(** * Properties *)

Local Close Scope string_scope.

(** ** The retry loop *)

Section RetryFacts.
Context {A : Type}.
Variable cfg : Config.
Variable fn : nat → Completion A.
Variable retries : nat.

Lemma withRetry_loop_done i fuel :
  retries ≤ i → withRetry_loop cfg fn retries i fuel = ([], Normal Undefined).
Proof.
  intros Hi. destruct fuel as [|fuel]; simpl; [done|].
  case_decide; [lia|done].
Qed.

(** [k] transient failures in a row that do not end the budget only add
    their calls and sleeps in front of what the loop does next. *)
Lemma withRetry_loop_backoff k : ∀ i fuel,
  i + k < retries → k < fuel →
  (∀ j, i ≤ j < i + k → transient (fn j)) →
  withRetry_loop cfg fn retries i fuel =
    let '(events, result) := withRetry_loop cfg fn retries (i + k) (fuel - k) in
    (backoff cfg i k ++ events, result).
Proof.
  induction k as [|k IH]; intros i fuel Hi Hfuel Htr.
  - rewrite Nat.add_0_r, Nat.sub_0_r. simpl.
    by destruct (withRetry_loop cfg fn retries i fuel).
  - destruct fuel as [|fuel]; [lia|].
    destruct (Htr i) as (e & Hfn & He); [lia|].
    cbn [withRetry_loop]. rewrite Hfn, He.
    case_decide; [|lia]. case_decide; [lia|].
    rewrite (IH (S i) fuel); [|lia|lia|intros j Hj; apply Htr; lia].
    replace (S i + k) with (i + S k) by lia.
    replace (S fuel - S k) with (fuel - k) by lia.
    by destruct (withRetry_loop cfg fn retries (i + S k) (fuel - k)).
Qed.

Lemma withRetry_backoff k :
  k < retries →
  (∀ j, j < k → transient (fn j)) →
  withRetry cfg fn retries =
    let '(events, result) := withRetry_loop cfg fn retries k (retries - k) in
    (backoff cfg 0 k ++ events, result).
Proof.
  intros Hk Htr. unfold withRetry.
  rewrite (withRetry_loop_backoff k 0 retries); [done|lia|lia|].
  intros j Hj. apply Htr. lia.
Qed.

Lemma withRetry_resolves k v :
  k < retries →
  (∀ j, j < k → transient (fn j)) →
  fn k = Normal v →
  withRetry cfg fn retries = (backoff cfg 0 k ++ [Call k], Normal (Val v)).
Proof.
  intros Hk Htr Hfn. rewrite (withRetry_backoff k) by done.
  destruct (retries - k) as [|fuel] eqn:Hfuel; [lia|].
  cbn [withRetry_loop]. case_decide; [|lia]. by rewrite Hfn.
Qed.

Lemma withRetry_absent k e :
  k < retries →
  (∀ j, j < k → transient (fn j)) →
  fn k = Throw e → is_nonexistent e = true →
  withRetry cfg fn retries = (backoff cfg 0 k ++ [Call k], Normal Null).
Proof.
  intros Hk Htr Hfn He. rewrite (withRetry_backoff k) by done.
  destruct (retries - k) as [|fuel] eqn:Hfuel; [lia|].
  cbn [withRetry_loop]. case_decide; [|lia]. by rewrite Hfn, He.
Qed.

Lemma withRetry_exhausted e :
  0 < retries →
  (∀ j, j < retries - 1 → transient (fn j)) →
  fn (retries - 1) = Throw e → is_nonexistent e = false →
  withRetry cfg fn retries =
    (backoff cfg 0 (retries - 1) ++ [Call (retries - 1)], Throw e).
Proof.
  intros Hpos Htr Hfn He. rewrite (withRetry_backoff (retries - 1)) by (done || lia).
  destruct (retries - (retries - 1)) as [|fuel] eqn:Hfuel; [lia|].
  cbn [withRetry_loop]. case_decide; [|lia]. rewrite Hfn, He.
  by case_decide.
Qed.

Lemma attempts_backoff i k events :
  attempts (backoff cfg i k ++ events) = k + attempts events.
Proof.
  unfold attempts, backoff. revert i.
  induction k as [|k IH]; intros i; simpl; [done|].
  f_equal. apply IH.
Qed.

(** With a positive budget the loop never falls off its end. *)
Lemma withRetry_loop_defined fuel : ∀ i,
  i < retries → retries - i ≤ fuel →
  (withRetry_loop cfg fn retries i fuel).2 ≠ Normal Undefined.
Proof.
  induction fuel as [|fuel IH]; intros i Hi Hfuel; [lia|].
  cbn [withRetry_loop]. case_decide; [|lia].
  destruct (fn i) as [v|e]; [done|].
  destruct (is_nonexistent e); [done|].
  case_decide; [done|].
  specialize (IH (S i)).
  destruct (withRetry_loop cfg fn retries (S i) fuel) as [events result].
  simpl in *. apply IH; lia.
Qed.

Lemma withRetry_defined :
  0 < retries → (withRetry cfg fn retries).2 ≠ Normal Undefined.
Proof. intros Hpos. apply withRetry_loop_defined; lia. Qed.
End RetryFacts.

Lemma withRetry_no_budget {A} cfg (fn : nat → Completion A) :
  withRetry cfg fn 0 = ([], Normal Undefined).
Proof. reflexivity. Qed.

(** ** Chunking *)

Lemma ceil_div_upper a b : 0 < b → a ≤ ceil_div a b * b.
Proof.
  intros Hb. unfold ceil_div.
  pose proof (Nat.div_mod_eq (a + b - 1) b) as Hdiv.
  pose proof (Nat.mod_upper_bound (a + b - 1) b) as Hmod. nia.
Qed.

Lemma ceil_div_lower a b : 0 < b → 0 < a → (ceil_div a b - 1) * b < a.
Proof.
  intros Hb Ha. unfold ceil_div.
  pose proof (Nat.div_mod_eq (a + b - 1) b) as Hdiv.
  pose proof (Nat.mod_upper_bound (a + b - 1) b) as Hmod. nia.
Qed.

Lemma ceil_div_0 b : 0 < b → ceil_div 0 b = 0.
Proof. intros Hb. unfold ceil_div. apply Nat.div_small. lia. Qed.

Lemma slice_window {A} (arr : list A) i size :
  slice arr (i * size) (i * size + size) = take size (drop (i * size) arr).
Proof. unfold slice. f_equal. lia. Qed.

Lemma concat_slices {A} (arr : list A) size n :
  concat (map (fun i => slice arr (i * size) (i * size + size)) (seq 0 n))
  = take (n * size) arr.
Proof.
  induction n as [|n IH]; [done|].
  rewrite seq_S, map_app, concat_app, IH. simpl.
  rewrite app_nil_r, slice_window, take_take_drop. f_equal. lia.
Qed.

Lemma chunk_Normal {A} (arr : list A) size :
  0 < size →
  chunk arr size =
    Normal (map (fun i => slice arr (i * size) (i * size + size))
                (seq 0 (ceil_div (length arr) size))).
Proof. intros Hs. destruct size; [lia|done]. Qed.

(** The chunks, one after the other, are the array. *)
Lemma chunk_concat {A} (arr : list A) size batches :
  0 < size → chunk arr size = Normal batches → concat batches = arr.
Proof.
  intros Hs. rewrite chunk_Normal by done. intros [= <-].
  rewrite concat_slices. apply take_ge. by apply ceil_div_upper.
Qed.

(** Every chunk holds [size] items, but the last, which holds between 1 and
    [size]. *)
Lemma chunk_lengths {A} (arr : list A) size batches i batch :
  0 < size → chunk arr size = Normal batches → batches !! i = Some batch →
  0 < length batch ≤ size ∧ (S i < length batches → length batch = size).
Proof.
  intros Hs. rewrite chunk_Normal by done. intros [= <-] Hi.
  rewrite length_map, length_seq.
  rewrite list_lookup_fmap in Hi.
  destruct (seq 0 (ceil_div (length arr) size) !! i) as [j|] eqn:Hj; [|done].
  apply lookup_seq in Hj as [-> Hlt]. simpl in Hi. injection Hi as <-.
  rewrite slice_window, length_take, length_drop.
  assert (0 < length arr) as Hne.
  { destruct arr; simpl; [|lia]. rewrite ceil_div_0 in Hlt; lia. }
  pose proof (ceil_div_lower (length arr) size Hs Hne).
  split; [nia|]. intros Hnext. nia.
Qed.

(** ** Promise.all *)

Lemma Promise_all_app {A} (ps qs : list (Completion A)) :
  Promise_all (ps ++ qs) =
    xs ← Promise_all ps; ys ← Promise_all qs; Normal (xs ++ ys).
Proof.
  induction ps as [|[v|e] ps IH]; simpl.
  - by destruct (Promise_all qs).
  - rewrite IH. destruct (Promise_all ps); [|done]. simpl.
    by destruct (Promise_all qs).
  - done.
Qed.

Lemma Promise_all_map_Normal {A B} (f : A → Completion B) (l : list A) vs :
  Promise_all (map f l) = Normal vs ↔ Forall2 (fun x v => f x = Normal v) l vs.
Proof.
  revert vs. induction l as [|x l IH]; intros vs; simpl.
  - split; [intros [= <-]; constructor|by inversion 1].
  - destruct (f x) as [v|e] eqn:Hfx.
    + destruct (Promise_all (map f l)) as [ws|e] eqn:Hall; simpl.
      * split.
        -- intros [= <-]. constructor; [done|]. by apply IH.
        -- inversion 1 as [|? w ? ws' Hw Hws]; subst.
           apply IH in Hws. congruence.
      * split; [done|]. inversion 1 as [|? w ? ws' Hw Hws]; subst.
        apply IH in Hws. done.
    + split; [done|]. inversion 1; congruence.
Qed.

Lemma Promise_all_total {A B} (f : A → Completion B) (l : list A) :
  (∀ x, x ∈ l → ∃ v, f x = Normal v) →
  ∃ vs, Promise_all (map f l) = Normal vs.
Proof.
  induction l as [|x l IH]; intros Hall; simpl; [by eexists|].
  destruct (Hall x) as [v ->]; [by left|].
  destruct IH as [vs ->]; [|by eexists].
  intros y Hy. apply Hall. by right.
Qed.

Lemma Promise_all_rejects {A B} (f : A → Completion B) (l : list A) x e :
  x ∈ l → f x = Throw e → ∃ e', Promise_all (map f l) = Throw e'.
Proof.
  induction l as [|y l IH]; intros Hx Hfx; [by inversion Hx|]. simpl.
  destruct (f y) as [v|e0] eqn:Hfy; [|by eexists].
  apply elem_of_cons in Hx as [->|Hx]; [congruence|].
  destruct (IH Hx Hfx) as [e' ->]. by eexists.
Qed.

(** ** The owner set *)

Lemma elem_of_Set_add `{EqDecision A} (x y : A) (s : list A) :
  y ∈ Set_add x s ↔ y = x ∨ y ∈ s.
Proof.
  unfold Set_add. case_decide as Hin.
  - split; [by right|]. intros [->|]; done.
  - rewrite elem_of_app, list_elem_of_singleton. tauto.
Qed.

Lemma NoDup_Set_add `{EqDecision A} (x : A) (s : list A) :
  NoDup s → NoDup (Set_add x s).
Proof.
  intros Hs. unfold Set_add. case_decide as Hin; [done|].
  apply NoDup_app. split_and!; [done| |apply NoDup_singleton].
  intros y Hy ->%list_elem_of_singleton. done.
Qed.

Section OwnerFacts.
Variable cfg : Config.
Variable eth : Ethers.

Lemma addProcessedTokens_0 st : addProcessedTokens 0 st = st.
Proof. destruct st. unfold addProcessedTokens. simpl. f_equal. lia. Qed.

Lemma addProcessedTokens_add n m st :
  addProcessedTokens m (addProcessedTokens n st) = addProcessedTokens (n + m) st.
Proof. unfold addProcessedTokens. simpl. f_equal. lia. Qed.

Lemma collectOwner_addProcessedTokens n st owner :
  collectOwner (addProcessedTokens n st) owner
  = addProcessedTokens n (collectOwner st owner).
Proof. by destruct owner. Qed.

Lemma fold_collectOwner_addProcessedTokens n owners : ∀ st,
  fold_left collectOwner owners (addProcessedTokens n st)
  = addProcessedTokens n (fold_left collectOwner owners st).
Proof.
  induction owners as [|owner owners IH]; intros st; simpl; [done|].
  by rewrite collectOwner_addProcessedTokens, IH.
Qed.

(** The batches of owner lookups do what one batch of all their items does. *)
Lemma ownerBatches_concat batches : ∀ st,
  ownerBatches cfg eth batches st =
    owners ← Promise_all (map (lookupOwner cfg eth) (concat batches));
    Normal (addProcessedTokens (length (concat batches))
              (fold_left collectOwner owners st)).
Proof.
  induction batches as [|batch rest IH]; intros st; simpl.
  - by rewrite addProcessedTokens_0.
  - rewrite map_app, Promise_all_app. unfold limit.
    destruct (Promise_all (map (lookupOwner cfg eth) batch)) as [owners|e];
      simpl; [|done].
    change (ownerBatches cfg eth rest ?s) with
      (ownerBatches cfg eth rest
         (addProcessedTokens (length batch) (fold_left collectOwner owners st))).
    rewrite IH.
    destruct (Promise_all (map (lookupOwner cfg eth) (concat rest))) as [owners'|e];
      simpl; [|done].
    rewrite fold_collectOwner_addProcessedTokens, addProcessedTokens_add.
    by rewrite fold_left_app, length_app.
Qed.

Lemma collectOwner_holders st owner key :
  key ∈ uniqueHolders (collectOwner st owner)
  ↔ key ∈ uniqueHolders st ∨ (key = owner ∧ key ≠ Null).
Proof.
  destruct owner; simpl; rewrite ?elem_of_Set_add; intuition congruence.
Qed.

Lemma fold_collectOwner_holders owners : ∀ st key,
  key ∈ uniqueHolders (fold_left collectOwner owners st)
  ↔ key ∈ uniqueHolders st ∨ (key ∈ owners ∧ key ≠ Null).
Proof.
  induction owners as [|owner owners IH]; intros st key; simpl.
  - rewrite elem_of_nil. tauto.
  - rewrite IH, collectOwner_holders, elem_of_cons. tauto.
Qed.

Lemma collectOwner_NoDup st owner :
  NoDup (uniqueHolders st) → NoDup (uniqueHolders (collectOwner st owner)).
Proof. destruct owner; simpl; auto using NoDup_Set_add. Qed.

Lemma fold_collectOwner_NoDup owners : ∀ st,
  NoDup (uniqueHolders st) →
  NoDup (uniqueHolders (fold_left collectOwner owners st)).
Proof.
  induction owners as [|owner owners IH]; intros st Hst; simpl; [done|].
  by apply IH, collectOwner_NoDup.
Qed.

Lemma collectOwner_not_Null st owner :
  Null ∉ uniqueHolders st → Null ∉ uniqueHolders (collectOwner st owner).
Proof. rewrite collectOwner_holders. tauto. Qed.

Lemma tokenIds_seq n : tokenIds n = seq 1 n.
Proof.
  unfold tokenIds. rewrite <- seq_shift. apply map_ext. intros i. lia.
Qed.

(** The result of [getUniqueHolders], without the batches. *)
Lemma getUniqueHolders_run_flat N :
  0 < OWNER_BATCH_SIZE cfg → totalSupply eth = Normal N →
  getUniqueHolders_run cfg eth =
    owners ← Promise_all (map (lookupOwner cfg eth) (seq 1 N));
    Normal (addProcessedTokens N (fold_left collectOwner owners noHolders)).
Proof.
  intros Hsize Hsupply. unfold getUniqueHolders_run. rewrite Hsupply. simpl.
  destruct (chunk (tokenIds N) (OWNER_BATCH_SIZE cfg)) as [batches|e] eqn:Hchunk.
  - simpl. rewrite ownerBatches_concat.
    rewrite (chunk_concat _ _ _ Hsize Hchunk), tokenIds_seq.
    by rewrite length_seq.
  - by rewrite chunk_Normal in Hchunk.
Qed.
End OwnerFacts.

(** ** The balance loop *)

Section BalanceFacts.
Variable cfg : Config.
Variable eth : Ethers.

Lemma lookupBalance_no_budget address :
  RETRY_ATTEMPTS cfg = 0 → lookupBalance cfg eth address = Normal Undefined.
Proof. intros Hzero. unfold lookupBalance. by rewrite Hzero. Qed.

Lemma lookupOwner_no_budget tokenId :
  RETRY_ATTEMPTS cfg = 0 → lookupOwner cfg eth tokenId = Normal Undefined.
Proof. intros Hzero. unfold lookupOwner. by rewrite Hzero. Qed.

Lemma lookupBalance_defined address :
  0 < RETRY_ATTEMPTS cfg → lookupBalance cfg eth address ≠ Normal Undefined.
Proof. apply withRetry_defined. Qed.

Lemma lookupOwner_defined tokenId :
  0 < RETRY_ATTEMPTS cfg → lookupOwner cfg eth tokenId ≠ Normal Undefined.
Proof. apply withRetry_defined. Qed.

Lemma addProcessedHolders_0 st : addProcessedHolders 0 st = st.
Proof. destruct st. unfold addProcessedHolders. simpl. f_equal. lia. Qed.

Lemma addProcessedHolders_add n m st :
  addProcessedHolders m (addProcessedHolders n st) = addProcessedHolders (n + m) st.
Proof. unfold addProcessedHolders. simpl. f_equal. lia. Qed.

Lemma settleBalance_addProcessedHolders n st balance :
  settleBalance (addProcessedHolders n st) balance
  = addProcessedHolders n (settleBalance st balance).
Proof. by destruct balance. Qed.

Lemma fold_settleBalance_addProcessedHolders n balances : ∀ st,
  fold_left settleBalance balances (addProcessedHolders n st)
  = addProcessedHolders n (fold_left settleBalance balances st).
Proof.
  induction balances as [|balance balances IH]; intros st; simpl; [done|].
  by rewrite settleBalance_addProcessedHolders, IH.
Qed.

(** Without an [undefined] among them, the callback never throws. *)
Lemma collectBalances_defined balances : ∀ st,
  Forall (fun balance => balance ≠ Undefined) balances →
  collectBalances balances st = Normal (fold_left settleBalance balances st).
Proof.
  induction balances as [|balance balances IH]; intros st Hdef; [done|].
  apply Forall_cons in Hdef as [Hb Hdef].
  destruct balance as [| |n]; [done| |]; simpl; by rewrite IH.
Qed.

Lemma collectBalances_undefined balances st :
  collectBalances (Undefined :: balances) st = Throw undefinedToBigInt.
Proof. reflexivity. Qed.

(** The sum is exact: every amount is added once, and nothing else. *)
Lemma fold_settleBalance_total balances : ∀ st,
  totalETH (fold_left settleBalance balances st)
  = (totalETH st + sumOf balances)%Z.
Proof.
  unfold sumOf.
  induction balances as [|balance balances IH]; intros st; simpl; [lia|].
  rewrite IH. destruct balance; simpl; lia.
Qed.

Lemma fold_settleBalance_failed balances : ∀ st,
  failedBalanceChecks (fold_left settleBalance balances st)
  = failedBalanceChecks st + nulls balances.
Proof.
  unfold nulls.
  induction balances as [|balance balances IH]; intros st; simpl; [lia|].
  rewrite IH. destruct balance; simpl; lia.
Qed.

Lemma fold_settleBalance_processed balances : ∀ st,
  processedHolders (fold_left settleBalance balances st) = processedHolders st.
Proof.
  induction balances as [|balance balances IH]; intros st; simpl; [done|].
  rewrite IH. by destruct balance.
Qed.

Lemma lookups_defined (holders : list (Value string)) balances :
  0 < RETRY_ATTEMPTS cfg →
  Promise_all (map (lookupBalance cfg eth) holders) = Normal balances →
  Forall (fun balance => balance ≠ Undefined) balances.
Proof.
  intros Hpos Hall. apply Promise_all_map_Normal in Hall.
  induction Hall as [|holder balance holders balances Hb _ IH]; constructor; [|done].
  intros ->. by apply (lookupBalance_defined holder).
Qed.

(** With a positive retry budget, the batches of balance lookups do what
    one batch of all their items does. *)
Lemma balanceBatches_concat batches :
  0 < RETRY_ATTEMPTS cfg → ∀ st,
  balanceBatches cfg eth batches st =
    balances ← Promise_all (map (lookupBalance cfg eth) (concat batches));
    Normal (addProcessedHolders (length (concat batches))
              (fold_left settleBalance balances st)).
Proof.
  intros Hpos.
  induction batches as [|batch rest IH]; intros st; simpl.
  - by rewrite addProcessedHolders_0.
  - rewrite map_app, Promise_all_app. unfold limit.
    destruct (Promise_all (map (lookupBalance cfg eth) batch))
      as [balances|e] eqn:Hbatch; simpl; [|done].
    rewrite collectBalances_defined by (by eapply lookups_defined). simpl.
    change (balanceBatches cfg eth rest ?s) with
      (balanceBatches cfg eth rest
         (addProcessedHolders (length batch) (fold_left settleBalance balances st))).
    rewrite IH.
    destruct (Promise_all (map (lookupBalance cfg eth) (concat rest)))
      as [balances'|e]; simpl; [|done].
    rewrite fold_settleBalance_addProcessedHolders, addProcessedHolders_add.
    by rewrite fold_left_app, length_app.
Qed.

(** With no retry budget, the first holder met stops the loop. *)
Lemma balanceBatches_no_budget batches :
  RETRY_ATTEMPTS cfg = 0 → ∀ st,
  concat batches ≠ [] →
  balanceBatches cfg eth batches st = Throw undefinedToBigInt.
Proof.
  intros Hzero.
  induction batches as [|batch rest IH]; intros st Hne; [done|].
  destruct batch as [|holder batch].
  - simpl. apply IH. done.
  - cbn [balanceBatches map]. unfold limit.
    rewrite (map_ext _ (fun _ => Normal Undefined))
      by (intros; by apply lookupBalance_no_budget).
    rewrite lookupBalance_no_budget by done.
    cbn [Promise_all].
    destruct (Promise_all (map _ batch)) as [balances|e] eqn:Hall; [done|].
    exfalso. clear -Hall. induction batch as [|x batch IHb]; simpl in Hall; [done|].
    destruct (Promise_all (map _ batch)); [done|]. by apply IHb.
Qed.

Lemma aggregateBalances_flat holders :
  0 < BALANCE_BATCH_SIZE cfg → 0 < RETRY_ATTEMPTS cfg →
  aggregateBalances cfg eth holders =
    balances ← Promise_all (map (lookupBalance cfg eth) holders);
    Normal (addProcessedHolders (length holders)
              (fold_left settleBalance balances noBalances)).
Proof.
  intros Hsize Hpos. unfold aggregateBalances.
  destruct (chunk holders (BALANCE_BATCH_SIZE cfg)) as [batches|e] eqn:Hchunk.
  - simpl. rewrite balanceBatches_concat by done.
    by rewrite (chunk_concat _ _ _ Hsize Hchunk).
  - by rewrite chunk_Normal in Hchunk.
Qed.

Lemma aggregateBalances_no_budget holders :
  0 < BALANCE_BATCH_SIZE cfg → RETRY_ATTEMPTS cfg = 0 →
  aggregateBalances cfg eth holders =
    match holders with
    | [] => Normal noBalances
    | _ :: _ => Throw undefinedToBigInt
    end.
Proof.
  intros Hsize Hzero. unfold aggregateBalances.
  destruct (chunk holders (BALANCE_BATCH_SIZE cfg)) as [batches|e] eqn:Hchunk.
  - pose proof (chunk_concat _ _ _ Hsize Hchunk) as Hconcat. simpl.
    destruct holders as [|holder holders].
    + rewrite chunk_Normal, ceil_div_0 in Hchunk by done. by injection Hchunk as <-.
    + apply balanceBatches_no_budget; [done|]. by rewrite Hconcat.
  - by rewrite chunk_Normal in Hchunk.
Qed.
End BalanceFacts.

(** ** The retry wrapper *)

(** C3. The contract of [withRetry], for every operation [fn] and budget
    [maxAttempts]:
    - if [fn] fails transiently exactly [k < maxAttempts] times and then
      yields [v], the call returns [v], after [k + 1] attempts;
    - if [fn] reports the nonexistent-token signature at an attempt within
      the budget, the call returns [null] right after that attempt: the call
      is the last event, with no sleep and no attempt after it; when it is
      the first attempt, that one call is all that happens;
    - if [fn] fails transiently on all of [maxAttempts >= 1] tries, the call
      throws the last error, after exactly [maxAttempts] attempts and no
      sleep after the last one. *)
Theorem withRetry_contract {A} (cfg : Config) (fn : nat → Completion A)
    (maxAttempts : nat) :
  (∀ k v, k < maxAttempts → (∀ j, j < k → transient (fn j)) → fn k = Normal v →
     (withRetry cfg fn maxAttempts).2 = Normal (Val v)
     ∧ attempts (withRetry cfg fn maxAttempts).1 = k + 1)
  ∧ (∀ k e, k < maxAttempts → (∀ j, j < k → transient (fn j)) →
     fn k = Throw e → is_nonexistent e = true →
     withRetry cfg fn maxAttempts = (backoff cfg 0 k ++ [Call k], Normal Null))
  ∧ (∀ e, 0 < maxAttempts → fn 0 = Throw e → is_nonexistent e = true →
     withRetry cfg fn maxAttempts = ([Call 0], Normal Null)
     ∧ slept (withRetry cfg fn maxAttempts).1 = false)
  ∧ (0 < maxAttempts → (∀ j, j < maxAttempts → transient (fn j)) →
     ∃ e, fn (maxAttempts - 1) = Throw e
       ∧ withRetry cfg fn maxAttempts
         = (backoff cfg 0 (maxAttempts - 1) ++ [Call (maxAttempts - 1)], Throw e)
       ∧ attempts (withRetry cfg fn maxAttempts).1 = maxAttempts).
Proof.
  split_and!.
  - intros k v Hk Htr Hfn. rewrite (withRetry_resolves cfg fn _ k v) by done.
    simpl. split; [done|]. rewrite attempts_backoff. done.
  - intros k e Hk Htr Hfn He. by apply (withRetry_absent cfg fn _ k e).
  - intros e Hpos Hfn He.
    rewrite (withRetry_absent cfg fn _ 0 e) by (done || lia). done.
  - intros Hpos Htr.
    destruct (Htr (maxAttempts - 1)) as (e & Hfn & He); [lia|].
    exists e. split; [done|].
    rewrite (withRetry_exhausted cfg fn _ e); [|done| |done|done].
    + split; [done|]. simpl. rewrite attempts_backoff.
      unfold attempts. simpl. lia.
    + intros j Hj. apply Htr. lia.
Qed.

Lemma failsThenYields_transient {A} k (v : A) j :
  j < k → transient (failsThenYields k v j).
Proof.
  intros Hj. exists (RpcError None). unfold failsThenYields.
  by case_decide; [|lia].
Qed.

(** C3, at three operations under the repository's budget of 3: two
    failures and then a value; a token that does not exist; a node that
    never answers. *)
Lemma withRetry_contract_witness :
  ((withRetry CONFIG (failsThenYields 2 7%Z) 3).2 = Normal (Val 7%Z)
   ∧ attempts (withRetry CONFIG (failsThenYields 2 7%Z) 3).1 = 3)
  ∧ (withRetry CONFIG (@alwaysNonexistent Z) 3 = ([Call 0], Normal Null)
     ∧ slept (withRetry CONFIG (@alwaysNonexistent Z) 3).1 = false)
  ∧ (∃ e, @alwaysTransient Z 2 = Throw e
     ∧ withRetry CONFIG (@alwaysTransient Z) 3
       = ([Call 0; Sleep 1000; Call 1; Sleep 2000; Call 2], Throw e)
     ∧ attempts (withRetry CONFIG (@alwaysTransient Z) 3).1 = 3).
Proof.
  split; [|split].
  - apply (proj1 (withRetry_contract CONFIG (failsThenYields 2 7%Z) 3) 2 7%Z);
      [lia| |reflexivity].
    intros j Hj. by apply failsThenYields_transient.
  - apply (proj1 (proj2 (proj2 (withRetry_contract CONFIG (@alwaysNonexistent Z) 3)))
             (RpcError (Some nonexistent_token))); [lia|reflexivity|reflexivity].
  - apply (proj2 (proj2 (proj2 (withRetry_contract CONFIG (@alwaysTransient Z) 3))));
      [lia|].
    intros j _. by exists (RpcError (Some "rate limited"%string)).
Defined.

(** ** No retry budget *)

Lemma Promise_all_const {A B} (f : A → Completion B) (l : list A) v :
  (∀ x, f x = Normal v) →
  Promise_all (map f l) = Normal (replicate (length l) v).
Proof.
  intros Hf. induction l as [|x l IH]; simpl; [done|]. by rewrite Hf, IH.
Qed.

Lemma fold_collectOwner_undefined n : ∀ st,
  uniqueHolders st = [Undefined] →
  fold_left collectOwner (replicate n Undefined) st = st.
Proof.
  induction n as [|n IH]; intros st Hst; [done|].
  cbn [replicate fold_left].
  assert (collectOwner st Undefined = st) as ->; [|by apply IH].
  destruct st as [holders processed skipped]. simpl in *. subst holders.
  reflexivity.
Qed.

(** C10. With a retry budget of zero, [withRetry] returns [undefined]
    without invoking the operation: no value, no [null], no error. The
    consumers take it for a resolved value: [owners.forEach] inserts it into
    the owner set and counts nothing as skipped, and [balances.forEach]
    tries to add it to the total, where [BigInt(undefined)] throws. So a run
    over a non-empty collection with [RETRY_ATTEMPTS = 0] ends with the
    owner set [{undefined}] and then with that TypeError. *)
Theorem withRetry_zero_budget (cfg : Config) (eth : Ethers) (epochTime : Z) (N : nat) :
  (∀ A (fn : nat → Completion A),
     withRetry cfg fn 0 = ([], Normal Undefined)
     ∧ attempts (withRetry cfg fn 0).1 = 0)
  ∧ (∀ st, Undefined ∈ uniqueHolders (collectOwner st Undefined)
       ∧ skippedTokens (collectOwner st Undefined) = skippedTokens st)
  ∧ (∀ balances st,
       collectBalances (Undefined :: balances) st = Throw undefinedToBigInt)
  ∧ (RETRY_ATTEMPTS cfg = 0 →
     0 < OWNER_BATCH_SIZE cfg → 0 < BALANCE_BATCH_SIZE cfg →
     totalSupply eth = Normal N → 0 < N →
     getUniqueHolders cfg eth = Normal [Undefined]
     ∧ calculateTotalETHForHolders cfg eth epochTime = Throw undefinedToBigInt).
Proof.
  split_and!; try done.
  - intros st. split; [|done]. simpl. rewrite elem_of_Set_add. by left.
  - intros Hzero Hosize Hbsize Hsupply HN.
    assert (getUniqueHolders_run cfg eth =
            Normal {| uniqueHolders := [Undefined];
                      processedTokens := 0 + N; skippedTokens := 0 |}) as Hrun.
    { rewrite (getUniqueHolders_run_flat cfg eth N) by done.
      rewrite (Promise_all_const _ _ Undefined)
        by (intros; by apply lookupOwner_no_budget).
      rewrite length_seq. destruct N as [|n]; [lia|]. simpl.
      by rewrite fold_collectOwner_undefined. }
    unfold calculateTotalETHForHolders, calculateTotalETHForHolders_run,
      getUniqueHolders.
    rewrite Hrun. simpl. split; [done|].
    by rewrite aggregateBalances_no_budget.
Qed.

(** C10, on the scenario of the specification with the budget set to 0. *)
Lemma withRetry_zero_budget_witness :
  getUniqueHolders noRetries scenario = Normal [Undefined]
  ∧ calculateTotalETHForHolders noRetries scenario 1672531200 = Throw undefinedToBigInt.
Proof.
  apply (proj2 (proj2 (proj2 (withRetry_zero_budget noRetries scenario 1672531200 5))));
    [reflexivity|simpl; lia|simpl; lia|reflexivity|lia].
Defined.

(** ** Holder resolution *)

Lemma Forall2_settled {A B} (f : A → Completion B) (l : list A) (vs : list B) :
  Forall2 (fun x v => f x = Normal v) l vs →
  ∀ v, v ∈ vs ↔ ∃ x, x ∈ l ∧ f x = Normal v.
Proof.
  induction 1 as [|x w l vs Hx _ IH]; intros v.
  - split; [by intros ?%elem_of_nil|]. by intros (x & ?%elem_of_nil & _).
  - rewrite elem_of_cons, IH. split.
    + intros [->|(y & Hy & Hfy)]; [exists x|exists y]; rewrite elem_of_cons; auto.
    + intros (y & [->|Hy]%elem_of_cons & Hfy); [left; congruence|right; eauto].
Qed.

Lemma settles_withRetry {A} cfg retries (fn : nat → Completion A) k r :
  settles retries fn k r → (withRetry cfg fn retries).2 = Normal r.
Proof.
  intros (Hk & Htr & [(v & Hfn & ->)|(e & Hfn & He & ->)]).
  - by rewrite (withRetry_resolves cfg fn retries k v).
  - by rewrite (withRetry_absent cfg fn retries k e).
Qed.

(** C4, as the code has it. For every collection size [N] below the array
    length limit the work items are the identifiers 1..N, and when every
    call sequence of [ownerOf] for these tokens settles within the retry
    budget (an owner key, perhaps after transient failures, or the
    nonexistent-token signature), [getUniqueHolders] returns a list without
    duplicates that holds exactly the owner keys [ownerOf] returned: one
    entry for each key that [ownerOf] gave for some token of 1..N, and
    nothing for the tokens that do not exist. *)
Theorem getUniqueHolders_owner_keys (cfg : Config) (eth : Ethers) (N : nat) :
  0 < OWNER_BATCH_SIZE cfg →
  totalSupply eth = Normal N →
  (Z.of_nat N < arrayLengthLimit)%Z →
  (∀ tokenId, 1 ≤ tokenId ≤ N →
     ∃ k r, settles (RETRY_ATTEMPTS cfg) (ownerOf eth tokenId) k r) →
  tokenIds N = seq 1 N
  ∧ ∃ holders,
      getUniqueHolders cfg eth = Normal holders
      ∧ NoDup holders
      ∧ (∀ key, key ∈ holders ↔
           ∃ tokenId k, 1 ≤ tokenId ≤ N
             ∧ settles (RETRY_ATTEMPTS cfg) (ownerOf eth tokenId) k key
             ∧ key ≠ Null)
      ∧ (∀ key, key ∈ holders →
           ∃ tokenId k owner, 1 ≤ tokenId ≤ N
             ∧ ownerOf eth tokenId k = Normal owner ∧ key = Val owner).
Proof.
  intros Hsize Hsupply _ Hsettle. split; [apply tokenIds_seq|].
  assert (∀ tokenId, 1 ≤ tokenId ≤ N →
            ∃ owner, lookupOwner cfg eth tokenId = Normal owner) as Hlookup.
  { intros tokenId Hid. destruct (Hsettle tokenId Hid) as (k & r & Hk).
    exists r. by apply (settles_withRetry cfg _ _ k). }
  destruct (Promise_all_total (lookupOwner cfg eth) (seq 1 N)) as [owners Hall].
  { intros tokenId Hid%elem_of_seq. apply Hlookup. lia. }
  exists (uniqueHolders (fold_left collectOwner owners noHolders)).
  apply Promise_all_map_Normal in Hall as Hforall.
  assert (∀ key, key ∈ uniqueHolders (fold_left collectOwner owners noHolders) ↔
            ∃ tokenId k, 1 ≤ tokenId ≤ N
              ∧ settles (RETRY_ATTEMPTS cfg) (ownerOf eth tokenId) k key
              ∧ key ≠ Null) as Hmembers.
  { intros key. rewrite fold_collectOwner_holders.
    rewrite (Forall2_settled _ _ _ Hforall key). simpl. split.
    - intros [[]%elem_of_nil|[(tokenId & Hid%elem_of_seq & Hkey) Hnull]].
      destruct (Hsettle tokenId) as (k & r & Hk); [lia|].
      pose proof (settles_withRetry cfg _ _ _ _ Hk) as Hr.
      unfold lookupOwner in Hkey. rewrite Hkey in Hr. injection Hr as ->.
      exists tokenId, k. split; [lia|done].
    - intros (tokenId & k & Hid & Hk & Hnull). right. split; [|done].
      exists tokenId. split; [apply elem_of_seq; lia|].
      by apply (settles_withRetry cfg) in Hk. }
  split_and!.
  - unfold getUniqueHolders.
    by rewrite (getUniqueHolders_run_flat cfg eth N), Hall.
  - apply fold_collectOwner_NoDup. constructor.
  - done.
  - intros key Hin. apply Hmembers in Hin as (tokenId & k & Hid & (_ & _ & Hk) & Hnull).
    destruct Hk as [(owner & Hfn & ->)|(e & _ & _ & ->)]; [|done].
    by exists tokenId, k, owner.
Qed.

Lemma scenario_owners_settle tokenId :
  1 ≤ tokenId ≤ 5 →
  ∃ k r, settles (RETRY_ATTEMPTS CONFIG) (ownerOf scenario tokenId) k r.
Proof.
  intros Hid. exists 0.
  assert (tokenId = 1 ∨ tokenId = 2 ∨ tokenId = 3 ∨ tokenId = 4 ∨ tokenId = 5)
    as [->|[->|[->|[->| ->]]]] by lia.
  - exists (Val "0xA"%string). split_and!; [simpl; lia|intros; lia|]. left. by eexists.
  - exists (Val "0xA"%string). split_and!; [simpl; lia|intros; lia|]. left. by eexists.
  - exists (Val "0xB"%string). split_and!; [simpl; lia|intros; lia|]. left. by eexists.
  - exists Null. split_and!; [simpl; lia|intros; lia|]. right. by eexists.
  - exists (Val "0xC"%string). split_and!; [simpl; lia|intros; lia|]. left. by eexists.
Qed.

(** C4, on the scenario of the specification: [ownerOf] gives A, A, B,
    nothing for token 4 and C, and the holders are A, B and C. *)
Lemma getUniqueHolders_owner_keys_witness :
  getUniqueHolders CONFIG scenario
    = Normal [Val "0xA"%string; Val "0xB"%string; Val "0xC"%string]
  ∧ (tokenIds 5 = seq 1 5
     ∧ ∃ holders,
         getUniqueHolders CONFIG scenario = Normal holders
         ∧ NoDup holders
         ∧ (∀ key, key ∈ holders ↔
              ∃ tokenId k, 1 ≤ tokenId ≤ 5
                ∧ settles (RETRY_ATTEMPTS CONFIG) (ownerOf scenario tokenId) k key
                ∧ key ≠ Null)
         ∧ (∀ key, key ∈ holders →
              ∃ tokenId k owner, 1 ≤ tokenId ≤ 5
                ∧ ownerOf scenario tokenId k = Normal owner ∧ key = Val owner)).
Proof.
  split; [reflexivity|].
  apply (getUniqueHolders_owner_keys CONFIG scenario 5);
    [simpl; lia|reflexivity|unfold arrayLengthLimit; lia
    |apply scenario_owners_settle].
Defined.

(** C4 as stated fails. In [scenarioToken3Down] the client reports the size
    5 and [ownerOf] returns the keys A, A and C for the tokens 1, 2 and 5
    (token 4 does not exist), but the owner lookup of token 3 fails on all
    three attempts: [getUniqueHolders] throws and returns no set at all. *)
Lemma getUniqueHolders_returns_no_set :
  totalSupply scenarioToken3Down = Normal 5
  ∧ ownerOf scenarioToken3Down 1 0 = Normal "0xA"%string
  ∧ ownerOf scenarioToken3Down 2 0 = Normal "0xA"%string
  ∧ ownerOf scenarioToken3Down 5 0 = Normal "0xC"%string
  ∧ lookupOwner CONFIG scenarioToken3Down 3
    = Throw (RpcError (Some "rate limited"%string))
  ∧ getUniqueHolders CONFIG scenarioToken3Down
    = Throw (RpcError (Some "rate limited"%string))
  ∧ ¬ ∃ holders, getUniqueHolders CONFIG scenarioToken3Down = Normal holders.
Proof.
  split_and!; try by vm_compute.
  intros [holders Hholders]. by vm_compute in Hholders.
Qed.

(** ** The owner set *)

Lemma ownerBatches_NoDup cfg eth batches st st' :
  ownerBatches cfg eth batches st = Normal st' →
  NoDup (uniqueHolders st) → NoDup (uniqueHolders st').
Proof.
  rewrite ownerBatches_concat.
  destruct (Promise_all _) as [owners|e]; simpl; [|done].
  intros [= <-] Hst. simpl. by apply fold_collectOwner_NoDup.
Qed.

(** ** Balance aggregation *)

Lemma Forall2_choice {A B} (P : A → B → Prop) (l : list A) :
  (∀ x, x ∈ l → ∃ y, P x y) → ∃ ys, Forall2 P l ys.
Proof.
  induction l as [|x l IH]; intros Hall; [by exists []|].
  destruct (Hall x) as [y Hy]; [by left|].
  destruct IH as [ys Hys]; [intros z Hz; apply Hall; by right|].
  exists (y :: ys). by constructor.
Qed.

Section AggregationFacts.
Variable cfg : Config.
Variable eth : Ethers.

(** When every lookup settles with a balance or with [null], the loop ends
    with every balance settled once. *)
Lemma aggregateBalances_settled holders balances :
  0 < BALANCE_BATCH_SIZE cfg →
  Forall2 (fun holder balance =>
             lookupBalance cfg eth holder = Normal balance ∧ balance ≠ Undefined)
          holders balances →
  aggregateBalances cfg eth holders =
    Normal (addProcessedHolders (length holders)
              (fold_left settleBalance balances noBalances)).
Proof.
  intros Hsize Hsettled.
  destruct (RETRY_ATTEMPTS cfg) as [|n] eqn:Hbudget.
  - rewrite aggregateBalances_no_budget by done.
    destruct Hsettled as [|holder balance holders balances [Hb Hdef] _].
    + by rewrite addProcessedHolders_0.
    + rewrite lookupBalance_no_budget in Hb by done. congruence.
  - rewrite aggregateBalances_flat by (done || lia).
    assert (Promise_all (map (lookupBalance cfg eth) holders) = Normal balances)
      as ->; [|done].
    apply Promise_all_map_Normal.
    eapply Forall2_impl; [done|]. by intros ?? [? _].
Qed.

(** Whenever the loop ends normally, every lookup had settled and every
    balance was settled once. *)
Lemma aggregateBalances_returned holders st :
  0 < BALANCE_BATCH_SIZE cfg →
  aggregateBalances cfg eth holders = Normal st →
  ∃ balances,
    Forall2 (fun holder balance =>
               lookupBalance cfg eth holder = Normal balance ∧ balance ≠ Undefined)
            holders balances
    ∧ st = addProcessedHolders (length holders)
             (fold_left settleBalance balances noBalances).
Proof.
  intros Hsize.
  destruct (RETRY_ATTEMPTS cfg) as [|n] eqn:Hbudget.
  - rewrite aggregateBalances_no_budget by done.
    destruct holders; [|done]. intros [= <-]. exists [].
    split; [constructor|]. by rewrite addProcessedHolders_0.
  - rewrite aggregateBalances_flat by (done || lia).
    destruct (Promise_all _) as [balances|e] eqn:Hall; simpl; [|done].
    intros [= <-]. exists balances. split; [|done].
    apply Promise_all_map_Normal in Hall.
    eapply Forall2_impl; [done|]. intros holder balance Hb. split; [done|].
    intros ->. apply (lookupBalance_defined cfg eth holder); [lia|done].
Qed.

(** A lookup that throws ends the loop, whatever the other lookups give. *)
Lemma aggregateBalances_aborts holders holder e :
  0 < BALANCE_BATCH_SIZE cfg →
  holder ∈ holders → lookupBalance cfg eth holder = Throw e →
  ∃ e', aggregateBalances cfg eth holders = Throw e'.
Proof.
  intros Hsize Hin Hthrow.
  destruct (aggregateBalances cfg eth holders) as [st|e'] eqn:Hrun; [|by eexists].
  apply aggregateBalances_returned in Hrun as (balances & Hsettled & _); [|done].
  apply list_elem_of_lookup in Hin as [i Hi].
  destruct (Forall2_lookup_l _ _ _ _ _ Hsettled Hi) as (balance & _ & Hb & _).
  congruence.
Qed.
End AggregationFacts.

(** X17. For every list of owners and every positive batch size, when no
    balance lookup throws: the loop returns when every lookup settles (a
    balance or [null]), and whenever it returns, its total is the exact
    integer sum of the balances the lookups gave, [null] adding nothing,
    its failure count is the number of [null] results, and its processed
    count the number of owners. The sum is over [Z]: nothing is rounded. *)
Theorem aggregateBalances_exact (cfg : Config) (eth : Ethers)
    (owners : list (Value string)) :
  0 < BALANCE_BATCH_SIZE cfg →
  ((∀ owner, owner ∈ owners →
      ∃ balance, lookupBalance cfg eth owner = Normal balance ∧ balance ≠ Undefined) →
   ∃ st, aggregateBalances cfg eth owners = Normal st)
  ∧ (∀ st, aggregateBalances cfg eth owners = Normal st →
     ∃ balances,
       Forall2 (fun owner balance => lookupBalance cfg eth owner = Normal balance)
               owners balances
       ∧ totalETH st = sumOf balances
       ∧ failedBalanceChecks st = nulls balances
       ∧ processedHolders st = length owners).
Proof.
  intros Hsize. split.
  - intros Hsettle. apply Forall2_choice in Hsettle as [balances Hsettled].
    eexists. by apply aggregateBalances_settled.
  - intros st Hrun.
    apply aggregateBalances_returned in Hrun as (balances & Hsettled & ->); [|done].
    exists balances. split_and!.
    + eapply Forall2_impl; [done|]. by intros ?? [? _].
    + simpl. rewrite fold_settleBalance_total. simpl. lia.
    + simpl. by rewrite fold_settleBalance_failed.
    + simpl. by rewrite fold_settleBalance_processed.
Qed.

(** X17, on three owners whose lookups give 2^53 + 1, [null] and 1: the
    total is 2^53 + 2, which no double holds. *)
Lemma aggregateBalances_exact_witness :
  (∃ st, aggregateBalances CONFIG whales
           [Val "0xA"%string; Val "0xB"%string; Val "0xC"%string] = Normal st)
  ∧ ∃ balances,
      Forall2 (fun owner balance => lookupBalance CONFIG whales owner = Normal balance)
              [Val "0xA"%string; Val "0xB"%string; Val "0xC"%string] balances
      ∧ 9007199254740994%Z = sumOf balances
      ∧ 1 = nulls balances
      ∧ 3 = length [Val "0xA"%string; Val "0xB"%string; Val "0xC"%string].
Proof.
  pose proof (aggregateBalances_exact CONFIG whales
                [Val "0xA"%string; Val "0xB"%string; Val "0xC"%string]) as Hexact.
  destruct Hexact as [Hreturns Hsum]; [simpl; lia|]. split.
  - apply Hreturns. intros owner Hin.
    apply elem_of_cons in Hin as [->|Hin]; [by eexists|].
    apply elem_of_cons in Hin as [->|Hin]; [by eexists|].
    apply list_elem_of_singleton in Hin as ->. by eexists.
  - apply (Hsum {| totalETH := 9007199254740994;
                   processedHolders := 3; failedBalanceChecks := 1 |}).
    reflexivity.
Defined.

(** C5, checked on the code. In [scenarioBDown] the owners are A, B and C,
    the balance lookups of A and C give 10 and 5, and the lookup of B fails
    on all three attempts. The sum over the owners whose lookup did not
    fail is 15, but the balance loop ends with the exception of B and no
    total; the same lookups with [null] for B in place of the exception
    give the total 15 and one failure counted. (The defect is the one of
    C1: [withRetry] rethrows where the loop expects [null].) *)
Theorem failed_lookup_leaves_no_total :
  lookupBalance CONFIG scenarioBDown (Val "0xA"%string) = Normal (Val 10%Z)
  ∧ lookupBalance CONFIG scenarioBDown (Val "0xB"%string)
    = Throw (RpcError (Some "rate limited"%string))
  ∧ lookupBalance CONFIG scenarioBDown (Val "0xC"%string) = Normal (Val 5%Z)
  ∧ aggregateBalances CONFIG scenarioBDown
      [Val "0xA"%string; Val "0xB"%string; Val "0xC"%string]
    = Throw (RpcError (Some "rate limited"%string))
  ∧ collectBalances [Val 10%Z; Null; Val 5%Z] noBalances
    = Normal {| totalETH := 15; processedHolders := 0; failedBalanceChecks := 1 |}.
Proof. split_and!; by vm_compute. Qed.

(** ** Batching *)

Section BatchFacts.
Variable cfg : Config.
Variable eth : Ethers.

(** [getUniqueHolders] under any owner batch size: one pass over 1..N. *)
Lemma getUniqueHolders_run_any_batch ownerBatch balanceBatch :
  0 < ownerBatch →
  getUniqueHolders_run (withBatchSizes cfg ownerBatch balanceBatch) eth =
    match totalSupply eth with
    | Normal N =>
        owners ← Promise_all (map (lookupOwner cfg eth) (seq 1 N));
        Normal (addProcessedTokens N (fold_left collectOwner owners noHolders))
    | Throw e => Throw e
    end.
Proof.
  intros Hsize. destruct (totalSupply eth) as [N|e] eqn:Hsupply.
  - by rewrite (getUniqueHolders_run_flat _ eth N).
  - unfold getUniqueHolders_run. by rewrite Hsupply.
Qed.

Lemma aggregateBalances_any_batch o1 b1 o2 b2 holders :
  0 < b1 → 0 < b2 →
  aggregateBalances (withBatchSizes cfg o1 b1) eth holders
  = aggregateBalances (withBatchSizes cfg o2 b2) eth holders.
Proof.
  intros Hb1 Hb2. destruct (RETRY_ATTEMPTS cfg) as [|n] eqn:Hbudget.
  - by rewrite !aggregateBalances_no_budget.
  - by rewrite !aggregateBalances_flat by (simpl; lia).
Qed.

Lemma calculateTotalETHForHolders_run_any_batch epochTime o1 b1 o2 b2 :
  0 < o1 → 0 < b1 → 0 < o2 → 0 < b2 →
  calculateTotalETHForHolders_run (withBatchSizes cfg o1 b1) eth epochTime
  = calculateTotalETHForHolders_run (withBatchSizes cfg o2 b2) eth epochTime.
Proof.
  intros Ho1 Hb1 Ho2 Hb2. unfold calculateTotalETHForHolders_run.
  rewrite !getUniqueHolders_run_any_batch by done.
  destruct (totalSupply eth) as [N|e]; [|done].
  destruct (Promise_all _) as [owners|e]; simpl; [|done].
  by rewrite (aggregateBalances_any_batch o1 b1 o2 b2).
Qed.
End BatchFacts.

Lemma sameOutcome_refl {A} (r : Completion A) : sameOutcome r r.
Proof. by destruct r. Qed.

(** C6. Batching is transparent to results. For every list of items and
    every positive batch size, [chunk] cuts the list into consecutive
    slices whose concatenation is the list, each of the batch size but the
    last, which may be smaller. And for fixed outcomes of the lookups, any
    two choices of positive batch sizes give the same owner set and the
    same total (and the same counters): both runs return the same value, or
    both throw. *)
Theorem batching_transparent {A} (cfg : Config) (eth : Ethers) (epochTime : Z)
    (items : list A) (o1 b1 o2 b2 : nat) :
  0 < o1 → 0 < b1 → 0 < o2 → 0 < b2 →
  (∃ batches,
     chunk items o1 = Normal batches
     ∧ concat batches = items
     ∧ ∀ i batch, batches !! i = Some batch →
         0 < length batch ≤ o1 ∧ (S i < length batches → length batch = o1))
  ∧ sameOutcome (getUniqueHolders (withBatchSizes cfg o1 b1) eth)
                (getUniqueHolders (withBatchSizes cfg o2 b2) eth)
  ∧ sameOutcome (calculateTotalETHForHolders_run (withBatchSizes cfg o1 b1) eth epochTime)
                (calculateTotalETHForHolders_run (withBatchSizes cfg o2 b2) eth epochTime)
  ∧ sameOutcome (calculateTotalETHForHolders (withBatchSizes cfg o1 b1) eth epochTime)
                (calculateTotalETHForHolders (withBatchSizes cfg o2 b2) eth epochTime).
Proof.
  intros Ho1 Hb1 Ho2 Hb2. split_and!.
  - eexists. split; [apply chunk_Normal, Ho1|]. split.
    + eapply chunk_concat; [|apply chunk_Normal]; exact Ho1.
    + intros i batch. eapply chunk_lengths; [|apply chunk_Normal]; exact Ho1.
  - unfold getUniqueHolders.
    rewrite !getUniqueHolders_run_any_batch by done. apply sameOutcome_refl.
  - rewrite (calculateTotalETHForHolders_run_any_batch cfg eth epochTime o1 b1 o2 b2)
      by done.
    apply sameOutcome_refl.
  - unfold calculateTotalETHForHolders.
    rewrite (calculateTotalETHForHolders_run_any_batch cfg eth epochTime o1 b1 o2 b2)
      by done.
    apply sameOutcome_refl.
Qed.

(** C6, on the scenario of the specification and on 1000 items, with the
    batch sizes 1 and 7. *)
Lemma batching_transparent_witness :
  (∃ batches,
     chunk (seq 1 1000) 1 = Normal batches
     ∧ concat batches = seq 1 1000
     ∧ ∀ i batch, batches !! i = Some batch →
         0 < length batch ≤ 1 ∧ (S i < length batches → length batch = 1))
  ∧ sameOutcome (getUniqueHolders (withBatchSizes CONFIG 1 1) scenario)
                (getUniqueHolders (withBatchSizes CONFIG 7 7) scenario)
  ∧ sameOutcome (calculateTotalETHForHolders_run (withBatchSizes CONFIG 1 1) scenario 0)
                (calculateTotalETHForHolders_run (withBatchSizes CONFIG 7 7) scenario 0)
  ∧ sameOutcome (calculateTotalETHForHolders (withBatchSizes CONFIG 1 1) scenario 0)
                (calculateTotalETHForHolders (withBatchSizes CONFIG 7 7) scenario 0).
Proof.
  apply (batching_transparent CONFIG scenario 0 (seq 1 1000) 1 1 7 7); lia.
Defined.

(** ** The entry point *)

Lemma fold_collectOwner_skipped owners : ∀ st,
  skippedTokens (fold_left collectOwner owners st) = skippedTokens st + nulls owners.
Proof.
  unfold nulls.
  induction owners as [|owner owners IH]; intros st; simpl; [lia|].
  rewrite IH. destruct owner; simpl; lia.
Qed.

Lemma fold_collectOwner_processed owners : ∀ st,
  processedTokens (fold_left collectOwner owners st) = processedTokens st.
Proof.
  induction owners as [|owner owners IH]; intros st; simpl; [done|].
  rewrite IH. by destruct owner.
Qed.

(** C2, as the code has it. When the supply is read and every lookup
    settles, [calculateTotalETHForHolders] returns one string: the exact
    integer total rendered by [formatEther]. The counters of the two loops
    (processed, skipped, failed) have the values given below when the
    function returns, and are not part of what it returns. *)
Theorem calculateTotalETHForHolders_returns_formatted (cfg : Config) (eth : Ethers)
    (epochTime : Z) (N : nat) (owners : list (Value string))
    (balances : list (Value Z)) :
  0 < OWNER_BATCH_SIZE cfg → 0 < BALANCE_BATCH_SIZE cfg →
  totalSupply eth = Normal N →
  Forall2 (fun tokenId owner => lookupOwner cfg eth tokenId = Normal owner)
          (seq 1 N) owners →
  Forall2 (fun holder balance =>
             lookupBalance cfg eth holder = Normal balance ∧ balance ≠ Undefined)
          (uniqueHolders (fold_left collectOwner owners noHolders)) balances →
  calculateTotalETHForHolders cfg eth epochTime
    = Normal (JsString (formatEther eth (sumOf balances)))
  ∧ ∃ hs bs,
      calculateTotalETHForHolders_run cfg eth epochTime = Normal (hs, bs)
      ∧ uniqueHolders hs = uniqueHolders (fold_left collectOwner owners noHolders)
      ∧ processedTokens hs = N
      ∧ skippedTokens hs = nulls owners
      ∧ totalETH bs = sumOf balances
      ∧ processedHolders bs = length (uniqueHolders hs)
      ∧ failedBalanceChecks bs = nulls balances.
Proof.
  intros Hosize Hbsize Hsupply Howners Hbalances.
  assert (calculateTotalETHForHolders_run cfg eth epochTime =
          Normal (addProcessedTokens N (fold_left collectOwner owners noHolders),
                  addProcessedHolders
                    (length (uniqueHolders (fold_left collectOwner owners noHolders)))
                    (fold_left settleBalance balances noBalances))) as Hrun.
  { unfold calculateTotalETHForHolders_run.
    rewrite (getUniqueHolders_run_flat cfg eth N) by done.
    apply Promise_all_map_Normal in Howners. rewrite Howners. simpl.
    by rewrite (aggregateBalances_settled cfg eth _ balances). }
  split.
  - unfold calculateTotalETHForHolders. rewrite Hrun. simpl.
    by rewrite fold_settleBalance_total.
  - eexists _, _. split; [exact Hrun|]. simpl.
    rewrite fold_collectOwner_processed, fold_collectOwner_skipped.
    rewrite fold_settleBalance_total, fold_settleBalance_processed,
      fold_settleBalance_failed.
    done.
Qed.

(** C2, on the scenario of the specification: the total 15 comes back as
    the string 0.000000000000000015. *)
Lemma calculateTotalETHForHolders_returns_formatted_witness :
  calculateTotalETHForHolders CONFIG scenario 1672531200
    = Normal (JsString "0.000000000000000015")
  ∧ ∃ hs bs,
      calculateTotalETHForHolders_run CONFIG scenario 1672531200 = Normal (hs, bs)
      ∧ uniqueHolders hs = [Val "0xA"%string; Val "0xB"%string; Val "0xC"%string]
      ∧ processedTokens hs = 5
      ∧ skippedTokens hs = 1
      ∧ totalETH bs = 15%Z
      ∧ processedHolders bs = length (uniqueHolders hs)
      ∧ failedBalanceChecks bs = 0.
Proof.
  apply (calculateTotalETHForHolders_returns_formatted CONFIG scenario 1672531200 5
           [Val "0xA"%string; Val "0xA"%string; Val "0xB"%string; Null; Val "0xC"%string]
           [Val 10%Z; Val 0%Z; Val 5%Z]);
    [simpl; lia|simpl; lia|reflexivity| |];
    repeat constructor; done.
Defined.

(** C2 as stated fails. On the scenario of the specification the raw total
    is 15 and one token is skipped, yet the caller receives the string
    0.000000000000000015 and not the integer; and on [scenarioNoGap], whose
    counters differ (no token skipped, two holders), the caller receives
    the same string: the returned value does not carry the statistics. *)
Lemma calculateTotalETHForHolders_returns_no_stats :
  calculateTotalETHForHolders CONFIG scenario 1672531200
    = Normal (JsString "0.000000000000000015")
  ∧ calculateTotalETHForHolders CONFIG scenario 1672531200 ≠ Normal (JsBigInt 15)
  ∧ calculateTotalETHForHolders CONFIG scenarioNoGap 1672531200
    = calculateTotalETHForHolders CONFIG scenario 1672531200
  ∧ (∃ hs bs hs' bs',
       calculateTotalETHForHolders_run CONFIG scenario 1672531200 = Normal (hs, bs)
       ∧ calculateTotalETHForHolders_run CONFIG scenarioNoGap 1672531200 = Normal (hs', bs')
       ∧ totalETH bs = 15%Z ∧ totalETH bs' = 15%Z
       ∧ skippedTokens hs = 1 ∧ skippedTokens hs' = 0
       ∧ processedHolders bs = 3 ∧ processedHolders bs' = 2).
Proof.
  split_and!; [by vm_compute|by vm_compute|by vm_compute|].
  eexists _, _, _, _. split_and!; by vm_compute.
Qed.

(** C8. The result does not depend on the epoch timestamp: two runs that
    differ in [epochTime] only return the same value, with the same
    counters. *)
Theorem calculateTotalETHForHolders_ignores_epoch (cfg : Config) (eth : Ethers)
    (epochTime epochTime' : Z) :
  calculateTotalETHForHolders cfg eth epochTime
  = calculateTotalETHForHolders cfg eth epochTime'
  ∧ calculateTotalETHForHolders_run cfg eth epochTime
    = calculateTotalETHForHolders_run cfg eth epochTime'.
Proof. split; reflexivity. Qed.

(** ** Exhausted retries *)

(** C1, checked on the code. In [scenarioBDown] the balance lookup of owner
    B fails on all three attempts, and [withRetry] throws after the third.
    The run does not return a total with one failure counted: the rejection
    passes through [Promise.all] and out of [calculateTotalETHForHolders],
    and [main] reports an error. The failure counter is only reached by a
    lookup that yields [null], as the last part shows on the balances 10,
    [null] and 5. *)
Theorem retry_exhausted_aborts_run :
  withRetry CONFIG (getBalance scenarioBDown (Val "0xB"%string)) 3
    = ([Call 0; Sleep 1000; Call 1; Sleep 2000; Call 2],
       Throw (RpcError (Some "rate limited"%string)))
  ∧ getUniqueHolders CONFIG scenarioBDown
    = Normal [Val "0xA"%string; Val "0xB"%string; Val "0xC"%string]
  ∧ calculateTotalETHForHolders_run CONFIG scenarioBDown 1672531200
    = Throw (RpcError (Some "rate limited"%string))
  ∧ calculateTotalETHForHolders CONFIG scenarioBDown 1672531200
    = Throw (RpcError (Some "rate limited"%string))
  ∧ main CONFIG scenarioBDown = ErrorInMain (RpcError (Some "rate limited"%string))
  ∧ (∀ st, collectBalances [Val 10%Z; Null; Val 5%Z] st
           = Normal {| totalETH := totalETH st + 15;
                       processedHolders := processedHolders st;
                       failedBalanceChecks := failedBalanceChecks st + 1 |}).
Proof.
  split_and!; try by vm_compute.
  intros st. simpl. do 2 f_equal. lia.
Qed.

(** * Further properties of the code *)

(** ** The retry loop, for every operation *)

Section RetryCases.
Context {A : Type}.
Variable cfg : Config.
Variable fn : nat → Completion A.
Variable retries : nat.

Lemma backoff_S i n :
  backoff cfg i (S n)
  = Call i :: Sleep (RETRY_DELAY cfg * 2 ^ Z.of_nat i)%Z :: backoff cfg (S i) n.
Proof. reflexivity. Qed.

(** Every run of the loop with budget left ends at some attempt [k], after
    [k - i] transient failures, in one of three ways. *)
Lemma withRetry_loop_cases fuel : ∀ i,
  i < retries → retries - i ≤ fuel →
  ∃ k r,
    i ≤ k < retries
    ∧ (∀ j, i ≤ j < k → transient (fn j))
    ∧ withRetry_loop cfg fn retries i fuel = (backoff cfg i (k - i) ++ [Call k], r)
    ∧ ((∃ v, fn k = Normal v ∧ r = Normal (Val v))
       ∨ (∃ e, fn k = Throw e ∧ is_nonexistent e = true ∧ r = Normal Null)
       ∨ (∃ e, fn k = Throw e ∧ is_nonexistent e = false
            ∧ k = retries - 1 ∧ r = Throw e)).
Proof.
  induction fuel as [|fuel IH]; intros i Hi Hfuel; [lia|].
  cbn [withRetry_loop]. case_decide; [|lia].
  destruct (fn i) as [v|e] eqn:Hfn.
  - exists i, (Normal (Val v)). rewrite Nat.sub_diag.
    split_and!; [lia|lia|intros; lia|done|]. left. by exists v.
  - destruct (is_nonexistent e) eqn:He.
    + exists i, (Normal Null). rewrite Nat.sub_diag.
      split_and!; [lia|lia|intros; lia|done|]. right. left. by exists e.
    + case_decide as Hlast.
      * exists i, (Throw e). rewrite Nat.sub_diag.
        split_and!; [lia|lia|intros; lia|done|]. right. right. by exists e.
      * destruct (IH (S i)) as (k & r & Hk & Htr & Hloop & Hcases); [lia|lia|].
        exists k, r. rewrite Hloop. split_and!; [lia|lia| | |done].
        -- intros j Hj. destruct (decide (j = i)) as [->|Hne].
           ++ by exists e.
           ++ apply Htr. lia.
        -- replace (k - i) with (S (k - S i)) by lia. by rewrite backoff_S.
Qed.

Lemma withRetry_cases :
  0 < retries →
  ∃ k r,
    k < retries
    ∧ (∀ j, j < k → transient (fn j))
    ∧ withRetry cfg fn retries = (backoff cfg 0 k ++ [Call k], r)
    ∧ ((∃ v, fn k = Normal v ∧ r = Normal (Val v))
       ∨ (∃ e, fn k = Throw e ∧ is_nonexistent e = true ∧ r = Normal Null)
       ∨ (∃ e, fn k = Throw e ∧ is_nonexistent e = false
            ∧ k = retries - 1 ∧ r = Throw e)).
Proof.
  intros Hpos. unfold withRetry.
  destruct (withRetry_loop_cases retries 0) as (k & r & Hk & Htr & Hloop & Hcases);
    [lia|lia|].
  exists k, r. rewrite Nat.sub_0_r in Hloop.
  split_and!; [lia| |done|done]. intros j Hj. apply Htr. lia.
Qed.

Lemma sleepTotal_backoff k : ∀ i events,
  sleepTotal (backoff cfg i k ++ events)
  = (RETRY_DELAY cfg * (2 ^ Z.of_nat (i + k) - 2 ^ Z.of_nat i)
     + sleepTotal events)%Z.
Proof.
  induction k as [|k IH]; intros i events.
  - rewrite Nat.add_0_r. simpl. lia.
  - rewrite backoff_S. cbn [app]. unfold sleepTotal in *.
    cbn [map foldr]. rewrite IH.
    replace (i + S k) with (S i + k) by lia.
    rewrite (Nat2Z.inj_succ i), Z.pow_succ_r by lia. lia.
Qed.
End RetryCases.

(** X1. Whatever the operation does, a call of [withRetry] with a positive
    budget makes between 1 and [retries] attempts, numbered in order, sleeps
    [RETRY_DELAY * 2^i] after the failed attempt [i] and only between two
    attempts: the trace is the back-off of [n - 1] failures followed by the
    last call, with nothing after it. *)
Theorem withRetry_trace_shape {A} (cfg : Config) (fn : nat → Completion A)
    (retries : nat) :
  0 < retries →
  ∃ n, 1 ≤ n ≤ retries
    ∧ (withRetry cfg fn retries).1 = backoff cfg 0 (n - 1) ++ [Call (n - 1)]
    ∧ attempts (withRetry cfg fn retries).1 = n.
Proof.
  intros Hpos.
  destruct (withRetry_cases cfg fn retries Hpos) as (k & r & Hk & _ & Hrun & _).
  exists (S k). rewrite Hrun. simpl. rewrite Nat.sub_0_r.
  split_and!; [lia|lia|done|].
  rewrite attempts_backoff. unfold attempts. simpl. lia.
Qed.

(** X1, on a node that never answers, with the repository's configuration. *)
Lemma withRetry_trace_shape_witness :
  ∃ n, 1 ≤ n ≤ 3
    ∧ (withRetry CONFIG (@alwaysTransient Z) 3).1
      = backoff CONFIG 0 (n - 1) ++ [Call (n - 1)]
    ∧ attempts (withRetry CONFIG (@alwaysTransient Z) 3).1 = n.
Proof. apply (withRetry_trace_shape CONFIG (@alwaysTransient Z) 3). lia. Defined.

(** X2. The time a call of [withRetry] spends asleep is
    [RETRY_DELAY * (2^(n-1) - 1)] for [n] attempts made, so, for a
    non-negative delay, at most [RETRY_DELAY * (2^(retries-1) - 1)]: 3000 ms
    under the repository's configuration. *)
Theorem withRetry_sleep_total {A} (cfg : Config) (fn : nat → Completion A)
    (retries : nat) :
  0 < retries → (0 ≤ RETRY_DELAY cfg)%Z →
  sleepTotal (withRetry cfg fn retries).1
  = (RETRY_DELAY cfg
     * (2 ^ (Z.of_nat (attempts (withRetry cfg fn retries).1) - 1) - 1))%Z
  ∧ (sleepTotal (withRetry cfg fn retries).1
     ≤ RETRY_DELAY cfg * (2 ^ (Z.of_nat retries - 1) - 1))%Z.
Proof.
  intros Hpos Hdelay.
  destruct (withRetry_cases cfg fn retries Hpos) as (k & r & Hk & _ & Hrun & _).
  rewrite Hrun. simpl. rewrite attempts_backoff, sleepTotal_backoff.
  unfold attempts, sleepTotal. simpl.
  replace (Z.of_nat (k + 1) - 1)%Z with (Z.of_nat k) by lia.
  split; [lia|].
  assert (2 ^ Z.of_nat k ≤ 2 ^ (Z.of_nat retries - 1))%Z
    by (apply Z.pow_le_mono_r; lia).
  nia.
Qed.

(** X2, on a node that never answers: 1000 ms and 2000 ms of sleep. *)
Lemma withRetry_sleep_total_witness :
  sleepTotal (withRetry CONFIG (@alwaysTransient Z) 3).1
  = (RETRY_DELAY CONFIG
     * (2 ^ (Z.of_nat (attempts (withRetry CONFIG (@alwaysTransient Z) 3).1) - 1) - 1))%Z
  ∧ (sleepTotal (withRetry CONFIG (@alwaysTransient Z) 3).1 ≤ 1000 * (2 ^ (3 - 1) - 1))%Z.
Proof.
  apply (withRetry_sleep_total CONFIG (@alwaysTransient Z) 3); [lia|simpl; lia].
Defined.

(** X3. [withRetry] invents nothing. A value it returns is the value the
    operation gave at some attempt within the budget, all attempts before
    it having failed transiently; [null] is returned only when an attempt
    reported the nonexistent-token signature; an error it throws is the one
    of the last attempt of the budget, all attempts having failed
    transiently; and [undefined] is returned only with no budget at all. *)
Theorem withRetry_sound {A} (cfg : Config) (fn : nat → Completion A)
    (retries : nat) :
  (∀ v, (withRetry cfg fn retries).2 = Normal (Val v) →
     ∃ k, k < retries ∧ fn k = Normal v ∧ ∀ j, j < k → transient (fn j))
  ∧ ((withRetry cfg fn retries).2 = Normal Null →
     ∃ k e, k < retries ∧ fn k = Throw e ∧ is_nonexistent e = true
       ∧ ∀ j, j < k → transient (fn j))
  ∧ (∀ e, (withRetry cfg fn retries).2 = Throw e →
     0 < retries ∧ fn (retries - 1) = Throw e ∧ is_nonexistent e = false
     ∧ ∀ j, j < retries → transient (fn j))
  ∧ ((withRetry cfg fn retries).2 = Normal Undefined → retries = 0).
Proof.
  destruct retries as [|n] eqn:Hretries; [by split_and!|].
  destruct (withRetry_cases cfg fn (S n)) as (k & r & Hk & Htr & Hrun & Hcases);
    [lia|].
  rewrite Hrun. simpl.
  destruct Hcases as [(v & Hfn & ->)|[(e & Hfn & He & ->)|(e & Hfn & He & -> & ->)]].
  - split_and!; try done. intros ? [= <-]. by exists k.
  - split_and!; try done. intros _. by exists k, e.
  - split_and!; try done. intros ? [= <-].
    split_and!; [lia|done|done|]. intros j Hj.
    destruct (decide (j = S n - 1)) as [->|Hne]; [by exists e|].
    apply Htr. lia.
Qed.

(** ** Chunking, at the edges and element by element *)

Lemma chunk_nil {A} size : chunk (@nil A) size = Normal [].
Proof. destruct size; [done|]. rewrite chunk_Normal, ceil_div_0 by lia. done. Qed.

(** The chunks, one after the other, are the array, whenever there are
    chunks at all. *)
Lemma chunk_concat_any {A} (arr : list A) size batches :
  chunk arr size = Normal batches → concat batches = arr.
Proof.
  destruct size as [|n].
  - destruct arr; [|done]. by intros [= <-].
  - apply chunk_concat. lia.
Qed.

Lemma ceil_div_1 a b : 0 < a ≤ b → ceil_div a b = 1.
Proof.
  intros Hab. unfold ceil_div.
  pose proof (Nat.div_mod_eq (a + b - 1) b) as Hdiv.
  pose proof (Nat.mod_upper_bound (a + b - 1) b) as Hmod. nia.
Qed.

(** X4. [chunk] at the edges: an empty array gives no batch, for every
    size, 0 included; a non-empty array with size 0 throws a RangeError; and
    a batch size that is at least the length gives the whole array as the
    one batch. *)
Theorem chunk_edge_cases {A} (x : A) (arr : list A) (size : nat) :
  chunk (@nil A) size = Normal []
  ∧ chunk (x :: arr) 0 = Throw (RangeError "Invalid array length")
  ∧ (length (x :: arr) ≤ size → chunk (x :: arr) size = Normal [x :: arr]).
Proof.
  split_and!.
  - apply chunk_nil.
  - done.
  - intros Hlen. simpl in Hlen.
    rewrite chunk_Normal, ceil_div_1 by (simpl; lia).
    cbn [seq map]. rewrite slice_window. simpl drop.
    by rewrite take_ge.
Qed.

(** X4, on two items and the owner batch size of the repository. *)
Lemma chunk_edge_cases_witness :
  chunk [1; 2] 150 = Normal [[1; 2]].
Proof.
  apply (proj2 (proj2 (chunk_edge_cases 1 [2] 150))). simpl. lia.
Defined.

(** X5. For a positive batch size, [chunk] makes [ceil(length / size)]
    batches, and item [j] of batch [i] is item [i * size + j] of the array:
    no item is lost, repeated or moved. *)
Theorem chunk_lookup {A} (arr : list A) (size : nat) (batches : list (list A)) :
  0 < size → chunk arr size = Normal batches →
  length batches = ceil_div (length arr) size
  ∧ ∀ i j, j < size →
      batches !! i ≫= (fun batch => batch !! j) = arr !! (i * size + j).
Proof.
  intros Hsize. rewrite chunk_Normal by done. intros [= <-].
  split; [by rewrite length_map, length_seq|].
  intros i j Hj. rewrite list_lookup_fmap.
  destruct (decide (i < ceil_div (length arr) size)) as [Hi|Hi].
  - rewrite lookup_seq_lt by done. simpl.
    by rewrite slice_window, lookup_take_lt, lookup_drop.
  - rewrite lookup_seq_ge by lia. simpl. symmetry.
    apply lookup_ge_None_2.
    pose proof (ceil_div_upper (length arr) size Hsize). nia.
Qed.

(** X5, on seven items in batches of three. *)
Lemma chunk_lookup_witness :
  length [[1; 2; 3]; [4; 5; 6]; [7]] = ceil_div (length [1; 2; 3; 4; 5; 6; 7]) 3
  ∧ ∀ i j, j < 3 →
      [[1; 2; 3]; [4; 5; 6]; [7]] !! i ≫= (fun batch => batch !! j)
      = [1; 2; 3; 4; 5; 6; 7] !! (i * 3 + j).
Proof.
  apply (chunk_lookup [1; 2; 3; 4; 5; 6; 7] 3 [[1; 2; 3]; [4; 5; 6]; [7]]);
    [lia|reflexivity].
Defined.

(** ** Failures that end the run *)

(** X6. A failure of the supply query is fatal and keeps its cause. For
    every configuration with which the analyzer can be constructed (a
    concurrency limit of 1 and up), [getUniqueHolders] and
    [calculateTotalETHForHolders] throw the error of [totalSupply] itself,
    whatever the lookups would give, and [main] reports that error. *)
Theorem totalSupply_failure_is_fatal (cfg : Config) (eth : Ethers)
    (epochTime : Z) (e : Error) :
  0 < CONCURRENT_REQUESTS cfg →
  totalSupply eth = Throw e →
  getUniqueHolders cfg eth = Throw e
  ∧ calculateTotalETHForHolders cfg eth epochTime = Throw e
  ∧ main cfg eth = ErrorInMain e.
Proof.
  intros _ Hsupply.
  assert (getUniqueHolders_run cfg eth = Throw e) as Hrun.
  { unfold getUniqueHolders_run. by rewrite Hsupply. }
  unfold main, calculateTotalETHForHolders, calculateTotalETHForHolders_run,
    getUniqueHolders.
  by rewrite Hrun.
Qed.

(** X6, on a node that does not answer the supply query. *)
Lemma totalSupply_failure_is_fatal_witness :
  getUniqueHolders CONFIG nodeDown = Throw (RpcError (Some "missing response"%string))
  ∧ calculateTotalETHForHolders CONFIG nodeDown 1672531200
    = Throw (RpcError (Some "missing response"%string))
  ∧ main CONFIG nodeDown = ErrorInMain (RpcError (Some "missing response"%string)).
Proof.
  apply (totalSupply_failure_is_fatal CONFIG nodeDown 1672531200);
    [simpl; lia|reflexivity].
Defined.

(** X7. One lookup that exhausts its retries ends the whole run with an
    exception, whatever the other lookups give: an owner lookup of a token
    in 1..N makes [getUniqueHolders] throw, and a balance lookup of one of
    the holders makes [calculateTotalETHForHolders] throw; [main] then
    reports an error and no total. *)
Theorem exhausted_lookup_aborts_run (cfg : Config) (eth : Ethers)
    (epochTime : Z) (N : nat) :
  0 < OWNER_BATCH_SIZE cfg → 0 < BALANCE_BATCH_SIZE cfg →
  totalSupply eth = Normal N →
  (∀ tokenId e, 1 ≤ tokenId ≤ N → lookupOwner cfg eth tokenId = Throw e →
     ∃ e', getUniqueHolders cfg eth = Throw e'
       ∧ calculateTotalETHForHolders cfg eth epochTime = Throw e'
       ∧ main cfg eth = ErrorInMain e')
  ∧ (∀ holders holder e,
       getUniqueHolders cfg eth = Normal holders →
       holder ∈ holders → lookupBalance cfg eth holder = Throw e →
       ∃ e', calculateTotalETHForHolders cfg eth epochTime = Throw e'
         ∧ main cfg eth = ErrorInMain e').
Proof.
  intros Hosize Hbsize Hsupply. split.
  - intros tokenId e Hid Hthrow.
    destruct (Promise_all_rejects (lookupOwner cfg eth) (seq 1 N) tokenId e)
      as [e' Hall]; [apply elem_of_seq; lia|done|].
    exists e'.
    assert (getUniqueHolders_run cfg eth = Throw e') as Hrun.
    { by rewrite (getUniqueHolders_run_flat cfg eth N), Hall. }
    unfold main, calculateTotalETHForHolders, calculateTotalETHForHolders_run,
      getUniqueHolders.
    by rewrite Hrun.
  - intros holders holder e Hholders Hin Hthrow.
    unfold getUniqueHolders in Hholders.
    destruct (getUniqueHolders_run cfg eth) as [hs|e0] eqn:Hrun; [|done].
    injection Hholders as <-.
    destruct (aggregateBalances_aborts cfg eth _ holder e Hbsize Hin Hthrow)
      as [e' Habort].
    exists e'.
    unfold main, calculateTotalETHForHolders, calculateTotalETHForHolders_run.
    rewrite Hrun. simpl. by rewrite Habort.
Qed.

(** X7, on the scenario with the owner of token 3 out of reach. *)
Lemma exhausted_lookup_aborts_run_witness :
  ∃ e', getUniqueHolders CONFIG scenarioToken3Down = Throw e'
    ∧ calculateTotalETHForHolders CONFIG scenarioToken3Down 1672531200 = Throw e'
    ∧ main CONFIG scenarioToken3Down = ErrorInMain e'.
Proof.
  apply (proj1 (exhausted_lookup_aborts_run CONFIG scenarioToken3Down 1672531200 5
                  ltac:(simpl; lia) ltac:(simpl; lia) eq_refl)
           3 (RpcError (Some "rate limited"%string))); [lia|reflexivity].
Defined.

(** ** What a run that returns has done *)

Section Returned.
Variable cfg : Config.
Variable eth : Ethers.

(** Whenever [getUniqueHolders] returns, the supply was read, every owner
    lookup of 1..N had settled, and the owners were collected in order. *)
Lemma getUniqueHolders_run_returned hs :
  getUniqueHolders_run cfg eth = Normal hs →
  ∃ N owners,
    totalSupply eth = Normal N
    ∧ Forall2 (fun tokenId owner => lookupOwner cfg eth tokenId = Normal owner)
              (seq 1 N) owners
    ∧ hs = addProcessedTokens N (fold_left collectOwner owners noHolders).
Proof.
  unfold getUniqueHolders_run.
  destruct (totalSupply eth) as [N|e]; simpl; [|done].
  destruct (chunk _ _) as [batches|e] eqn:Hchunk; simpl; [|done].
  rewrite ownerBatches_concat, (chunk_concat_any _ _ _ Hchunk), tokenIds_seq.
  destruct (Promise_all _) as [owners|e] eqn:Hall; simpl; [|done].
  intros [= <-]. exists N, owners. rewrite length_seq.
  split_and!; [done| |done]. by apply Promise_all_map_Normal.
Qed.

(** The same for the balance loop, for every batch size. *)
Lemma aggregateBalances_returned_any holders st :
  aggregateBalances cfg eth holders = Normal st →
  ∃ balances,
    Forall2 (fun holder balance =>
               lookupBalance cfg eth holder = Normal balance ∧ balance ≠ Undefined)
            holders balances
    ∧ st = addProcessedHolders (length holders)
             (fold_left settleBalance balances noBalances).
Proof.
  destruct holders as [|holder holders].
  - unfold aggregateBalances. rewrite chunk_nil. simpl. intros [= <-].
    exists []. split; [constructor|]. by rewrite addProcessedHolders_0.
  - destruct (BALANCE_BATCH_SIZE cfg) as [|n] eqn:Hsize.
    + unfold aggregateBalances. by rewrite Hsize.
    + apply aggregateBalances_returned. lia.
Qed.

Lemma fold_collectOwner_count owners : ∀ st,
  length (uniqueHolders (fold_left collectOwner owners st))
  + skippedTokens (fold_left collectOwner owners st)
  ≤ length (uniqueHolders st) + skippedTokens st + length owners.
Proof.
  induction owners as [|owner owners IH]; intros st; simpl; [lia|].
  etrans; [apply IH|].
  assert (length (Set_add owner (uniqueHolders st)) ≤ S (length (uniqueHolders st))).
  { unfold Set_add. case_decide; [lia|]. rewrite length_app. simpl. lia. }
  destruct owner; simpl; lia.
Qed.

Lemma nulls_le {A} (results : list (Value A)) : nulls results ≤ length results.
Proof. unfold nulls. apply List.filter_length_le. Qed.

(** A balance that [withRetry] returns was given by the node. *)
Lemma lookupBalance_value holder n :
  lookupBalance cfg eth holder = Normal (Val n) →
  ∃ attempt, getBalance eth holder attempt = Normal n.
Proof.
  unfold lookupBalance. destruct (RETRY_ATTEMPTS cfg) as [|m] eqn:Hbudget; [done|].
  destruct (withRetry_cases cfg (getBalance eth holder) (S m))
    as (k & r & _ & _ & Hrun & Hcases); [lia|].
  rewrite Hrun. simpl.
  destruct Hcases as [(v & Hfn & ->)|[(e & _ & _ & ->)|(e & _ & _ & _ & ->)]];
    [|done|done].
  intros [= <-]. by exists k.
Qed.

End Returned.

Lemma sumOf_Permutation balances balances' :
  balances ≡ₚ balances' → sumOf balances = sumOf balances'.
Proof. unfold sumOf. induction 1; simpl in *; lia. Qed.

Lemma nulls_Permutation {A} (results results' : list (Value A)) :
  results ≡ₚ results' → nulls results = nulls results'.
Proof.
  unfold nulls. induction 1 as [|x ?? _ IH|x y ?|??? _ IH1 _ IH2]; simpl in *.
  - done.
  - destruct (isNull x); simpl; lia.
  - destruct (isNull x), (isNull y); simpl; lia.
  - lia.
Qed.

Lemma fold_settleBalance_fields balances :
  fold_left settleBalance balances noBalances
  = {| totalETH := sumOf balances;
       processedHolders := 0;
       failedBalanceChecks := nulls balances |}.
Proof.
  pose proof (fold_settleBalance_total balances noBalances) as Htotal.
  pose proof (fold_settleBalance_failed balances noBalances) as Hfailed.
  pose proof (fold_settleBalance_processed balances noBalances) as Hprocessed.
  destruct (fold_left settleBalance balances noBalances). simpl in *.
  f_equal; lia.
Qed.

Lemma sumOf_bounds balances :
  Forall (fun balance => (0 ≤ amount balance)%Z) balances →
  (0 ≤ sumOf balances)%Z
  ∧ ∀ balance, balance ∈ balances → (amount balance ≤ sumOf balances)%Z.
Proof.
  unfold sumOf. induction 1 as [|b balances Hb _ [IH0 IH]]; simpl.
  - split; [lia|]. by intros ? ?%elem_of_nil.
  - split; [lia|]. intros b' [->|Hin]%elem_of_cons; [lia|].
    specialize (IH b' Hin). lia.
Qed.

(** X8. The order of the holders does not matter to the aggregation: when
    the balance loop returns for a list of holders, it returns the same
    total and the same counters for every permutation of that list. *)
Theorem aggregateBalances_permutation (cfg : Config) (eth : Ethers)
    (holders holders' : list (Value string)) (st : BalanceState) :
  0 < BALANCE_BATCH_SIZE cfg →
  holders ≡ₚ holders' →
  aggregateBalances cfg eth holders = Normal st →
  aggregateBalances cfg eth holders' = Normal st.
Proof.
  intros Hsize Hperm Hrun.
  apply aggregateBalances_returned in Hrun as (balances & Hsettled & ->); [|done].
  assert (∀ holder, holder ∈ holders' →
            ∃ balance, lookupBalance cfg eth holder = Normal balance
                       ∧ balance ≠ Undefined) as Hall.
  { intros holder Hin. rewrite <- Hperm in Hin.
    apply list_elem_of_lookup in Hin as [i Hi].
    destruct (Forall2_lookup_l _ _ _ _ _ Hsettled Hi) as (balance & _ & Hb).
    by exists balance. }
  apply Forall2_choice in Hall as [balances' Hsettled'].
  rewrite (aggregateBalances_settled cfg eth holders' balances') by done.
  assert (∀ hs bs,
            Forall2 (fun holder balance =>
                       lookupBalance cfg eth holder = Normal balance
                       ∧ balance ≠ Undefined) hs bs →
            bs = map (fun holder =>
                        match lookupBalance cfg eth holder with
                        | Normal balance => balance
                        | Throw _ => Undefined
                        end) hs) as Hmap.
  { induction 1 as [|h b hs bs [Hb _] _ IH]; simpl; [done|].
    by rewrite Hb, IH. }
  assert (balances ≡ₚ balances') as Hbalances.
  { rewrite (Hmap _ _ Hsettled), (Hmap _ _ Hsettled'). by apply Permutation_map. }
  rewrite !fold_settleBalance_fields.
  rewrite (sumOf_Permutation _ _ Hbalances), (nulls_Permutation _ _ Hbalances).
  by rewrite (Permutation_length Hperm).
Qed.

(** X8, on the holders of [whales] taken backwards. *)
Lemma aggregateBalances_permutation_witness :
  aggregateBalances CONFIG whales
    [Val "0xC"%string; Val "0xB"%string; Val "0xA"%string]
  = Normal {| totalETH := 9007199254740994;
              processedHolders := 3; failedBalanceChecks := 1 |}.
Proof.
  apply (aggregateBalances_permutation CONFIG whales
           [Val "0xA"%string; Val "0xB"%string; Val "0xC"%string]);
    [simpl; lia| |reflexivity].
  apply Permutation_sym, (Permutation_rev [_; _; _]).
Defined.

(** X9. When the node only reports non-negative balances, the total the
    balance loop returns is non-negative and at least the balance of every
    single holder. *)
Theorem aggregateBalances_bounds (cfg : Config) (eth : Ethers)
    (holders : list (Value string)) (st : BalanceState) :
  (∀ holder attempt n, getBalance eth holder attempt = Normal n → (0 ≤ n)%Z) →
  aggregateBalances cfg eth holders = Normal st →
  (0 ≤ totalETH st)%Z
  ∧ ∀ holder n, holder ∈ holders →
      lookupBalance cfg eth holder = Normal (Val n) → (n ≤ totalETH st)%Z.
Proof.
  intros Hnonneg Hrun.
  apply aggregateBalances_returned_any in Hrun as (balances & Hsettled & ->).
  simpl. rewrite fold_settleBalance_total. simpl.
  assert (Forall (fun balance => (0 ≤ amount balance)%Z) balances) as Hamounts.
  { clear -Hsettled Hnonneg.
    induction Hsettled as [|h b hs bs [Hb _] _ IH]; constructor; [|done].
    destruct b as [| |n]; simpl; [lia|lia|].
    apply lookupBalance_value in Hb as [attempt Hb]. by eapply Hnonneg. }
  destruct (sumOf_bounds balances Hamounts) as [Hsum Heach].
  split; [lia|]. intros holder n Hin Hlookup.
  apply list_elem_of_lookup in Hin as [i Hi].
  destruct (Forall2_lookup_l _ _ _ _ _ Hsettled Hi) as (balance & Hbi & Hb & _).
  assert (balance = Val n) as -> by congruence.
  specialize (Heach (Val n)). simpl in Heach.
  assert (Val n ∈ balances) by (apply list_elem_of_lookup; eauto).
  specialize (Heach ltac:(done)). lia.
Qed.

Lemma largeBalances_nonneg holder attempt n :
  largeBalances holder attempt = Normal n → (0 ≤ n)%Z.
Proof.
  unfold largeBalances. repeat case_decide; intros [= <-]; lia.
Qed.

(** X9, on the holders of [whales]. *)
Lemma aggregateBalances_bounds_witness :
  (0 ≤ 9007199254740994)%Z
  ∧ ∀ holder n,
      holder ∈ [Val "0xA"%string; Val "0xB"%string; Val "0xC"%string] →
      lookupBalance CONFIG whales holder = Normal (Val n) →
      (n ≤ 9007199254740994)%Z.
Proof.
  apply (aggregateBalances_bounds CONFIG whales
           [Val "0xA"%string; Val "0xB"%string; Val "0xC"%string]
           {| totalETH := 9007199254740994;
              processedHolders := 3; failedBalanceChecks := 1 |});
    [apply largeBalances_nonneg|reflexivity].
Defined.

(** X10. The counters of a run that returns are consistent: every token of
    the supply was processed; the holders found and the tokens skipped
    together are no more than the tokens processed (so the count of valid
    tokens in the progress line is never negative); every holder found was
    processed by the balance loop; and the failed balance checks are no
    more than the holders processed. *)
Theorem run_counters (cfg : Config) (eth : Ethers) (epochTime : Z)
    (hs : HoldersState) (bs : BalanceState) :
  calculateTotalETHForHolders_run cfg eth epochTime = Normal (hs, bs) →
  totalSupply eth = Normal (processedTokens hs)
  ∧ length (uniqueHolders hs) + skippedTokens hs ≤ processedTokens hs
  ∧ processedHolders bs = length (uniqueHolders hs)
  ∧ failedBalanceChecks bs ≤ processedHolders bs.
Proof.
  unfold calculateTotalETHForHolders_run.
  destruct (getUniqueHolders_run cfg eth) as [hs0|e] eqn:Hholders; simpl; [|done].
  destruct (aggregateBalances cfg eth (uniqueHolders hs0)) as [bs0|e] eqn:Hbalances;
    simpl; [|done].
  intros [= <- <-].
  apply getUniqueHolders_run_returned in Hholders as (N & owners & Hsupply & Howners & ->).
  apply aggregateBalances_returned_any in Hbalances as (balances & Hsettled & ->).
  pose proof (fold_collectOwner_count owners noHolders) as Hcount.
  apply Forall2_length in Howners. rewrite length_seq in Howners.
  apply Forall2_length in Hsettled.
  simpl in *. rewrite fold_collectOwner_processed.
  rewrite fold_settleBalance_processed, fold_settleBalance_failed. simpl.
  pose proof (nulls_le balances).
  split_and!; [done|lia|done|lia].
Qed.

(** X10, on the scenario of the specification. *)
Lemma run_counters_witness :
  calculateTotalETHForHolders_run CONFIG scenario 1672531200
    = Normal (scenarioHolders, scenarioBalances)
  ∧ (totalSupply scenario = Normal (processedTokens scenarioHolders)
     ∧ length (uniqueHolders scenarioHolders) + skippedTokens scenarioHolders
       ≤ processedTokens scenarioHolders
     ∧ processedHolders scenarioBalances = length (uniqueHolders scenarioHolders)
     ∧ failedBalanceChecks scenarioBalances ≤ processedHolders scenarioBalances).
Proof.
  split; [reflexivity|].
  apply (run_counters CONFIG scenario 1672531200 scenarioHolders scenarioBalances).
  reflexivity.
Defined.

(** ** The owner set under the client's normalisation *)







(** ** The order of the holders *)

Lemma list_difference_cons `{EqDecision A} (x : A) (l k : list A) :
  list_difference (x :: l) k
  = if decide (x ∈ k) then list_difference l k else x :: list_difference l k.
Proof. reflexivity. Qed.

Lemma list_difference_nil_r `{EqDecision A} (l : list A) : list_difference l [] = l.
Proof.
  induction l as [|x l IH]; [done|]. rewrite list_difference_cons.
  case_decide as Hin; [by apply elem_of_nil in Hin|]. by rewrite IH.
Qed.

Lemma list_difference_filter_in `{EqDecision A} (l s : list A) (x : A) :
  x ∈ s → list_difference (filter (fun y => y ≠ x) l) s = list_difference l s.
Proof.
  intros Hx. induction l as [|y l IH]; [done|].
  rewrite filter_cons, (list_difference_cons y l). case_decide as Hy.
  - by rewrite list_difference_cons, IH.
  - assert (y = x) as -> by (by destruct (decide (y = x))).
    rewrite IH. by case_decide.
Qed.

Lemma list_difference_snoc `{EqDecision A} (l s : list A) (x : A) :
  list_difference l (s ++ [x]) = list_difference (filter (fun y => y ≠ x) l) s.
Proof.
  induction l as [|y l IH]; [done|].
  rewrite filter_cons, list_difference_cons, IH.
  destruct (decide (y = x)) as [->|Hne].
  - case_decide as Hin; [by case_decide|].
    exfalso. apply Hin, elem_of_app. right. by apply list_elem_of_singleton.
  - case_decide as Hin; (case_decide as Hne'; [|done]);
      rewrite list_difference_cons; case_decide as Hin'; try done; exfalso.
    + apply elem_of_app in Hin as [Hin|Hin%list_elem_of_singleton]; done.
    + apply Hin, elem_of_app. by left.
Qed.

Lemma fold_collectOwner_first owners : ∀ st,
  uniqueHolders (fold_left collectOwner owners st)
  = uniqueHolders st
    ++ list_difference (firstOccurrences (resolved owners)) (uniqueHolders st).
Proof.
  induction owners as [|owner owners IH]; intros st.
  - simpl. by rewrite app_nil_r.
  - cbn [fold_left]. rewrite IH.
    destruct owner as [| |a].
    + cbn [collectOwner uniqueHolders resolved List.filter isNull negb firstOccurrences].
      rewrite list_difference_cons. unfold Set_add. case_decide as Hin.
      * by rewrite list_difference_filter_in.
      * rewrite list_difference_snoc, <- app_assoc. done.
    + done.
    + cbn [collectOwner uniqueHolders resolved List.filter isNull negb firstOccurrences].
      rewrite list_difference_cons. unfold Set_add. case_decide as Hin.
      * by rewrite list_difference_filter_in.
      * rewrite list_difference_snoc, <- app_assoc. done.
Qed.

(** X11. The list [getUniqueHolders] returns holds the owners that the
    lookups of the tokens 1, 2, ..., N gave, [null] results left out, in
    the order in which each owner first appears, each once. *)
Theorem getUniqueHolders_order (cfg : Config) (eth : Ethers)
    (holders : list (Value string)) :
  getUniqueHolders cfg eth = Normal holders →
  ∃ N owners,
    totalSupply eth = Normal N
    ∧ Forall2 (fun tokenId owner => lookupOwner cfg eth tokenId = Normal owner)
              (seq 1 N) owners
    ∧ holders = firstOccurrences (resolved owners).
Proof.
  unfold getUniqueHolders.
  destruct (getUniqueHolders_run cfg eth) as [hs|e] eqn:Hrun; simpl; [|done].
  intros [= <-].
  apply getUniqueHolders_run_returned in Hrun as (N & owners & Hsupply & Howners & ->).
  exists N, owners. split_and!; [done|done|].
  simpl. rewrite fold_collectOwner_first. simpl.
  by rewrite list_difference_nil_r.
Qed.

(** X11, on the scenario of the specification: the owners A, A, B, none, C
    give the holders A, B, C. *)
Lemma getUniqueHolders_order_witness :
  ∃ N owners,
    totalSupply scenario = Normal N
    ∧ Forall2 (fun tokenId owner => lookupOwner CONFIG scenario tokenId = Normal owner)
              (seq 1 N) owners
    ∧ [Val "0xA"%string; Val "0xB"%string; Val "0xC"%string]
      = firstOccurrences (resolved owners).
Proof.
  apply (getUniqueHolders_order CONFIG scenario). reflexivity.
Defined.

(** ** Transient failures within the budget *)

Lemma withRetry_recovers {A} cfg retries (flaky stable : nat → Completion A) :
  recovers retries flaky stable →
  (withRetry cfg flaky retries).2 = (withRetry cfg stable retries).2.
Proof.
  intros (k & Hk & Htr & Hsame & Hfinal).
  destruct (stable 0) as [v|e] eqn:Hstable.
  - rewrite (withRetry_resolves cfg flaky retries k v) by done.
    rewrite (withRetry_resolves cfg stable retries 0 v); [done|lia| |done].
    intros j Hj. lia.
  - destruct (is_nonexistent e) eqn:He.
    + rewrite (withRetry_absent cfg flaky retries k e) by done.
      rewrite (withRetry_absent cfg stable retries 0 e); [done|lia| |done|done].
      intros j Hj. lia.
    + exfalso. apply Hfinal. by exists e.
Qed.

Section SameLookups.
Variable cfg : Config.
Variables eth eth' : Ethers.
Hypothesis same_owners : ∀ tokenId, lookupOwner cfg eth tokenId = lookupOwner cfg eth' tokenId.
Hypothesis same_balances : ∀ address, lookupBalance cfg eth address = lookupBalance cfg eth' address.

Lemma ownerBatches_same batches : ∀ st,
  ownerBatches cfg eth batches st = ownerBatches cfg eth' batches st.
Proof.
  induction batches as [|batch rest IH]; intros st; simpl; [done|].
  unfold limit. rewrite (map_ext _ _ same_owners).
  destruct (Promise_all _); simpl; [apply IH|done].
Qed.

Lemma balanceBatches_same batches : ∀ st,
  balanceBatches cfg eth batches st = balanceBatches cfg eth' batches st.
Proof.
  induction batches as [|batch rest IH]; intros st; simpl; [done|].
  unfold limit. rewrite (map_ext _ _ same_balances).
  destruct (Promise_all _); simpl; [|done].
  destruct (collectBalances _ _); simpl; [apply IH|done].
Qed.

Lemma calculateTotalETHForHolders_run_same epochTime :
  totalSupply eth = totalSupply eth' →
  calculateTotalETHForHolders_run cfg eth epochTime
  = calculateTotalETHForHolders_run cfg eth' epochTime.
Proof.
  intros Hsupply.
  unfold calculateTotalETHForHolders_run, getUniqueHolders_run, aggregateBalances.
  rewrite Hsupply. destruct (totalSupply eth') as [N|e]; simpl; [|done].
  destruct (chunk _ _) as [batches|e]; simpl; [|done].
  rewrite ownerBatches_same.
  destruct (ownerBatches _ _ _ _) as [hs|e]; simpl; [|done].
  destruct (chunk _ _) as [batches'|e]; simpl; [|done].
  by rewrite balanceBatches_same.
Qed.
End SameLookups.

(** X12. Transient failures within the retry budget do not show in the
    result. If every lookup of a ledger behind a flaky link recovers within
    [RETRY_ATTEMPTS] attempts to the final answer a stable ledger gives at
    once, the run over the flaky ledger ends as the run over the stable
    one: same counters, same returned value, or the same exception. *)
Theorem transient_failures_are_masked (cfg : Config) (flaky stable : Ethers)
    (epochTime : Z) :
  totalSupply flaky = totalSupply stable →
  (∀ total, formatEther flaky total = formatEther stable total) →
  (∀ tokenId,
     recovers (RETRY_ATTEMPTS cfg) (ownerOf flaky tokenId) (ownerOf stable tokenId)) →
  (∀ address,
     recovers (RETRY_ATTEMPTS cfg) (getBalance flaky address) (getBalance stable address)) →
  calculateTotalETHForHolders_run cfg flaky epochTime
  = calculateTotalETHForHolders_run cfg stable epochTime
  ∧ calculateTotalETHForHolders cfg flaky epochTime
    = calculateTotalETHForHolders cfg stable epochTime.
Proof.
  intros Hsupply Hformat Howners Hbalances.
  assert (calculateTotalETHForHolders_run cfg flaky epochTime
          = calculateTotalETHForHolders_run cfg stable epochTime) as Hrun.
  { apply calculateTotalETHForHolders_run_same; [| |done].
    - intros tokenId. by apply withRetry_recovers.
    - intros address. by apply withRetry_recovers. }
  split; [done|]. unfold calculateTotalETHForHolders. rewrite Hrun.
  destruct (calculateTotalETHForHolders_run cfg stable epochTime); simpl; [|done].
  by rewrite Hformat.
Qed.

Lemma flakyWhales_owner_recovers tokenId :
  recovers 3 (ownerOf flakyWhales tokenId) (ownerOf whales tokenId).
Proof.
  exists 2. split_and!; [lia| |done|].
  - intros j Hj. exists (RpcError None). simpl. by case_decide; [|lia].
  - intros (e & He & Htransient). simpl in He. unfold scenarioOwnerOf in He.
    repeat (destruct tokenId as [|tokenId]; [by simplify_eq|]).
    by simplify_eq.
Qed.

Lemma flakyWhales_balance_recovers address :
  recovers 3 (getBalance flakyWhales address) (getBalance whales address).
Proof.
  exists 2. split_and!; [lia| |done|].
  - intros j Hj. exists (RpcError None). simpl. by case_decide; [|lia].
  - intros (e & He & Htransient). simpl in He. unfold largeBalances in He.
    repeat case_decide; by simplify_eq.
Qed.

(** X12, on [whales] behind a link that drops the first two calls of every
    lookup. *)
Lemma transient_failures_are_masked_witness :
  calculateTotalETHForHolders_run CONFIG flakyWhales 1672531200
  = calculateTotalETHForHolders_run CONFIG whales 1672531200
  ∧ calculateTotalETHForHolders CONFIG flakyWhales 1672531200
    = calculateTotalETHForHolders CONFIG whales 1672531200.
Proof.
  apply (transient_failures_are_masked CONFIG flakyWhales whales 1672531200);
    [reflexivity|reflexivity
    |apply flakyWhales_owner_recovers|apply flakyWhales_balance_recovers].
Defined.

(** ** The performance tracker *)

Section TrackerFacts.
Context {Time : Type}.
Implicit Types (entries : list (string * Time)) (key name : string).

Lemma Map_get_set_eq key (value : Time) entries :
  Map_get key (Map_set key value entries) = Some value.
Proof.
  induction entries as [|[k v] entries IH]; simpl.
  - by case_decide.
  - case_decide as Hk; simpl; by case_decide.
Qed.

Lemma Map_get_set_ne key other (value : Time) entries :
  other ≠ key →
  Map_get other (Map_set key value entries) = Map_get other entries.
Proof.
  intros Hne. induction entries as [|[k v] entries IH]; simpl.
  - case_decide; [congruence|done].
  - case_decide as Hk; simpl.
    + subst k. case_decide; [congruence|done].
    + case_decide; [done|apply IH].
Qed.

Lemma Map_keys_set key (value : Time) entries :
  Map_keys (Map_set key value entries)
  = if decide (key ∈ Map_keys entries) then Map_keys entries
    else Map_keys entries ++ [key].
Proof.
  unfold Map_keys. induction entries as [|[k v] entries IH].
  - destruct (decide (key ∈ map fst [])) as [Hin|_]; [|done].
    by apply elem_of_nil in Hin.
  - cbn [Map_set map fst].
    destruct (decide (k = key)) as [->|Hk]; cbn [map fst].
    + destruct (decide (key ∈ key :: map fst entries)) as [_|Hin]; [done|].
      exfalso. apply Hin. by left.
    + rewrite IH.
      destruct (decide (key ∈ map fst entries)) as [Hin|Hin];
        destruct (decide (key ∈ k :: map fst entries)) as [Hin'|Hin'];
        try done; exfalso.
      * apply Hin'. by right.
      * apply elem_of_cons in Hin' as [->|Hin']; done.
Qed.

Lemma Map_get_elem key (value : Time) entries :
  Map_get key entries = Some value → (key, value) ∈ entries.
Proof.
  induction entries as [|[k v] entries IH]; simpl; [done|].
  case_decide as Hk.
  - intros [= <-]. subst k. by left.
  - intros Hget. right. by apply IH.
Qed.
End TrackerFacts.

(** X13. A checkpoint can be read back: after [checkpoint(name)] at the
    clock reading [now], the entry of [name] is [now - startTime], whether
    the name was checkpointed before or not; the entries of all other names
    and the start time are as they were. [start()] sets the start time and
    keeps the checkpoints recorded so far, and a checkpoint on a tracker
    that was never started is measured from 0. *)
Theorem checkpoint_recorded {Time} (zero : Time) (minus : Time → Time → Time)
    (name : string) (now : Time) (tracker : PerformanceTracker Time) :
  Map_get name (checkpoints (checkpoint minus name now tracker))
    = Some (minus now (startTime tracker))
  ∧ (∀ other, other ≠ name →
       Map_get other (checkpoints (checkpoint minus name now tracker))
       = Map_get other (checkpoints tracker))
  ∧ startTime (checkpoint minus name now tracker) = startTime tracker
  ∧ (∀ other, Map_get other (checkpoints (start now tracker))
              = Map_get other (checkpoints tracker))
  ∧ Map_get name (checkpoints (checkpoint minus name now (newPerformanceTracker zero)))
    = Some (minus now zero).
Proof.
  split_and!; try done.
  - apply Map_get_set_eq.
  - intros other Hne. by apply Map_get_set_ne.
  - apply Map_get_set_eq.
Qed.

(** X14. The names of the checkpoints stay distinct and keep the order in
    which they were first recorded: [checkpoint(name)] appends a name that
    is new and leaves the list of names as it is otherwise. The summary
    printed afterwards has one line per name between its heading and its
    total, and the line of [name] shows the time just recorded. *)
Theorem checkpoint_names {Time} (minus : Time → Time → Time)
    (toSeconds : Time → string) (name : string) (now later : Time)
    (tracker : PerformanceTracker Time) :
  Map_keys (checkpoints (checkpoint minus name now tracker))
    = (if decide (name ∈ Map_keys (checkpoints tracker))
       then Map_keys (checkpoints tracker)
       else Map_keys (checkpoints tracker) ++ [name])
  ∧ (NoDup (Map_keys (checkpoints tracker)) →
     NoDup (Map_keys (checkpoints (checkpoint minus name now tracker))))
  ∧ length (printSummary minus toSeconds later (checkpoint minus name now tracker))
    = length (Map_keys (checkpoints (checkpoint minus name now tracker))) + 2
  ∧ (name ++ ": " ++ toSeconds (minus now (startTime tracker)) ++ "s")%string
    ∈ printSummary minus toSeconds later (checkpoint minus name now tracker).
Proof.
  split_and!.
  - apply Map_keys_set.
  - intros Hnodup. simpl. rewrite Map_keys_set. case_decide as Hin; [done|].
    apply NoDup_app. split_and!; [done| |apply NoDup_singleton].
    by intros key Hkey ->%list_elem_of_singleton.
  - unfold printSummary, Map_keys. cbn [length app].
    rewrite length_app, !length_map. simpl. lia.
  - unfold printSummary. apply elem_of_app. right. apply elem_of_app. left.
    apply (list_elem_of_fmap_2
             (fun '(name, time) => (name ++ ": " ++ toSeconds time ++ "s")%string)
             (checkpoints (checkpoint minus name now tracker))
             (name, minus now (startTime tracker))).
    apply Map_get_elem, Map_get_set_eq.
Qed.

(** X14, on a tracker with times in whole milliseconds: a second
    checkpoint of a name that is there. *)
Lemma checkpoint_names_witness :
  NoDup (Map_keys (checkpoints
    (checkpoint Z.sub "Holders Retrieved" 2500%Z
       (checkpoint Z.sub "Holders Retrieved" 1200%Z
          (start 1000%Z (newPerformanceTracker 0%Z)))))).
Proof.
  apply (proj1 (proj2 (checkpoint_names Z.sub pretty "Holders Retrieved" 2500%Z 0%Z
                         (checkpoint Z.sub "Holders Retrieved" 1200%Z
                            (start 1000%Z (newPerformanceTracker 0%Z)))))).
  apply NoDup_singleton.
Defined.

(** ** What the run never looks at *)

Lemma withRetry_loop_ext {A} cfg (f g : nat → Completion A) retries fuel : ∀ i,
  (∀ j, i ≤ j < retries → f j = g j) →
  withRetry_loop cfg f retries i fuel = withRetry_loop cfg g retries i fuel.
Proof.
  induction fuel as [|fuel IH]; intros i Hsame; [done|].
  cbn [withRetry_loop]. case_decide as Hi; [|done].
  rewrite <- (Hsame i) by lia.
  rewrite (IH (S i)); [done|]. intros j Hj. apply Hsame. lia.
Qed.

(** X15. [withRetry] reads no outcome beyond its budget: two operations
    that behave alike on their first [retries] invocations give the same
    calls, the same sleeps and the same result. *)
Theorem withRetry_within_budget {A} (cfg : Config) (f g : nat → Completion A)
    (retries : nat) :
  (∀ attempt, attempt < retries → f attempt = g attempt) →
  withRetry cfg f retries = withRetry cfg g retries.
Proof.
  intros Hsame. apply withRetry_loop_ext. intros j Hj. apply Hsame. lia.
Qed.

(** X15, on an operation that fails twice and one that fails twice and
    would fail again at the fourth call, under a budget of 3. *)
Lemma withRetry_within_budget_witness :
  withRetry CONFIG (failsThenYields 2 7%Z) 3
  = withRetry CONFIG
      (fun attempt => if decide (attempt = 3) then Throw (RpcError None)
                      else failsThenYields 2 7%Z attempt) 3.
Proof.
  apply (withRetry_within_budget CONFIG). intros attempt Hattempt.
  by case_decide; [lia|].
Defined.

Lemma ownerBatches_same_on cfg eth eth' batches : ∀ st,
  (∀ tokenId, tokenId ∈ concat batches →
     lookupOwner cfg eth tokenId = lookupOwner cfg eth' tokenId) →
  ownerBatches cfg eth batches st = ownerBatches cfg eth' batches st.
Proof.
  induction batches as [|batch rest IH]; intros st Hsame; simpl; [done|].
  unfold limit.
  rewrite (map_ext_in (fun tokenId => lookupOwner cfg eth tokenId)
             (fun tokenId => lookupOwner cfg eth' tokenId) batch).
  2:{ intros tokenId Hin%list_elem_of_In.
      apply Hsame. simpl. apply elem_of_app. by left. }
  destruct (Promise_all _); simpl; [|done].
  apply IH. intros tokenId Hin. apply Hsame. simpl. apply elem_of_app. by right.
Qed.

(** X16. Holder resolution looks at the tokens 1..N only. Two ledgers with
    the same supply N whose owner lookups agree on the tokens 1 to N, within
    the retry budget, give the same result: the owner of token 0, and of
    any token above N, has no influence on it. *)
Theorem getUniqueHolders_reads_1_to_N (cfg : Config) (eth eth' : Ethers) (N : nat) :
  totalSupply eth = Normal N → totalSupply eth' = Normal N →
  (∀ tokenId attempt, 1 ≤ tokenId ≤ N → attempt < RETRY_ATTEMPTS cfg →
     ownerOf eth tokenId attempt = ownerOf eth' tokenId attempt) →
  getUniqueHolders_run cfg eth = getUniqueHolders_run cfg eth'
  ∧ getUniqueHolders cfg eth = getUniqueHolders cfg eth'.
Proof.
  intros Hsupply Hsupply' Hsame.
  assert (getUniqueHolders_run cfg eth = getUniqueHolders_run cfg eth') as Hrun.
  { unfold getUniqueHolders_run. rewrite Hsupply, Hsupply'. simpl.
    destruct (chunk _ _) as [batches|e] eqn:Hchunk; simpl; [|done].
    apply ownerBatches_same_on. intros tokenId Hin.
    rewrite (chunk_concat_any _ _ _ Hchunk), tokenIds_seq in Hin.
    apply elem_of_seq in Hin.
    unfold lookupOwner. f_equal. apply withRetry_loop_ext.
    intros attempt Hattempt. apply Hsame; lia. }
  split; [done|]. unfold getUniqueHolders. by rewrite Hrun.
Qed.

(** X16, on the scenario of the specification and the same ledger with an
    owner for token 0. *)
Lemma getUniqueHolders_reads_1_to_N_witness :
  getUniqueHolders_run CONFIG scenario
  = getUniqueHolders_run CONFIG
      {| totalSupply := Normal 5;
         ownerOf := fun tokenId attempt =>
           if decide (tokenId = 0) then Normal "0xD"%string
           else scenarioOwnerOf tokenId attempt;
         getBalance := scenarioGetBalance;
         formatEther := formatEther_v6 |}
  ∧ getUniqueHolders CONFIG scenario
    = getUniqueHolders CONFIG
        {| totalSupply := Normal 5;
           ownerOf := fun tokenId attempt =>
             if decide (tokenId = 0) then Normal "0xD"%string
             else scenarioOwnerOf tokenId attempt;
           getBalance := scenarioGetBalance;
           formatEther := formatEther_v6 |}.
Proof.
  apply (getUniqueHolders_reads_1_to_N CONFIG scenario _ 5);
    [reflexivity|reflexivity|].
  intros tokenId attempt Hid _. simpl. by case_decide; [lia|].
Defined.
